(** * status-poll: a shallow embedding of the polling state machine

    The repository holds three revisions of one polling primitive:

    - [src/main.js]: [pollForStatus(getStatus, statusResultSuccess,
      statusResultAbort)], embedded in [Module MainJs];
    - [src/unnamed/part_000], first script (lines 1-113): the two-argument
      [pollForStatus(getStatus, statusResultTest)], embedded in
      [Module TwoArg];
    - [src/unnamed/part_000], second script (lines 113-257):
      [createStatusPollFunction(getStatus, statusResultSuccess,
      statusResultAbort)], embedded in [Module Create].

    Modelling choices, shared by the three embeddings.

    - JavaScript values are the inductive [value]; an object is a finite map
      from property names to values.  Numbers are exact rationals extended
      with [NaN] and the two infinities; the counter [testCount] is a natural
      number (the rounding of doubles above 2^53 is not modelled).
    - The configuration object is passed by reference: it lives in a [heap]
      and the launcher receives its location, so that writes to [conf] are
      seen by the caller.
    - JavaScript is single threaded and runs every callback to completion, so
      the program is a transition system whose atomic steps are: a call of
      the launcher ([Launch]), the delivery of a fetch result to the
      completion handler ([Complete]) and the firing of a timer ([Fire]).
      The fetcher is the environment: it decides when a result is delivered
      and which one.  A fetch that is outstanding can be completed once,
      which is the contract "the fetcher calls back exactly once".  The
      result delivered is an object, as the documentation of [getStatus]
      says.
    - Calls of caller-supplied functions ([onTic], [onSuccess], [onFail],
      the predicates, [getStatus], [window.setTimeout]) are recorded, in
      order, in a [trace]; the callbacks themselves have no effect on the
      state of the poller. *)

From Stdlib Require Import ZArith QArith Qround.
From stdpp Require Import base option list gmap strings.

Set Warnings "-register-all".
Local Close Scope Q_scope.
Local Open Scope nat_scope.

(** ** JavaScript values *)

Inductive number :=
| Fin (q : Q)
| PInf
| NInf
| NaN.

Inductive value :=
| VUndefined
| VNull
| VBool (b : bool)
| VNum (n : number)
| VStr (s : string)
| VFun (f : nat)
| VObj (o : gmap string value).

Abbreviation obj := (gmap string value).
Abbreviation loc := nat.

(** The integer literal [z] as a JavaScript number. *)
Definition num (z : Z) : value := VNum (Fin (inject_Z z)).

(** The counter value [n] as a JavaScript number. *)
Definition num_of_nat (n : nat) : number := Fin (inject_Z (Z.of_nat n)).

(** [a < b] on numbers: false as soon as one side is [NaN]. *)
Definition num_lt (a b : number) : bool :=
  match a, b with
  | NaN, _ | _, NaN => false
  | Fin x, Fin y => negb (Qle_bool y x)
  | Fin _, PInf => true
  | Fin _, NInf => false
  | PInf, _ => false
  | NInf, NInf => false
  | NInf, _ => true
  end.

Arguments num_lt : simpl never.
Arguments num_of_nat : simpl never.

(** The [typeof] operator. *)
Definition typeof (v : value) : string :=
  match v with
  | VUndefined => "undefined"
  | VNull => "object"
  | VBool _ => "boolean"
  | VNum _ => "number"
  | VStr _ => "string"
  | VFun _ => "function"
  | VObj _ => "object"
  end.

(** Property read [o.k]: an absent property reads as [undefined]. *)
Definition get (o : obj) (k : string) : value := default VUndefined (o !! k).

(** [typeof v !== 'number' || v < 1]; the comparison is only evaluated on a
    number, by the short circuit of [||]. *)
Definition invalid (v : value) : bool :=
  bool_decide (typeof v ≠ "number") ||
  match v with VNum n => num_lt n (Fin (inject_Z 1)) | _ => false end.

(** [typeof v === 'function'] *)
Definition is_function (v : value) : bool := bool_decide (typeof v = "function").

(** [testCount < v].  The coercion of a non-number operand is not modelled:
    the comparison is then undefined ([None]); after the validation of the
    configuration the operand is a number. *)
Definition count_lt (testCount : nat) (v : value) : option bool :=
  match v with
  | VNum n => Some (num_lt (num_of_nat testCount) n)
  | _ => None
  end.

(** The two validation blocks at the head of the launcher:
    [if (typeof conf.maxTries !== 'number' || conf.maxTries < 1) conf.maxTries = 10;]
    [if (typeof conf.pollTime !== 'number' || conf.pollTime < 1) conf.pollTime = 100;] *)
Definition validate (o : obj) : obj :=
  let o1 := if invalid (get o "maxTries") then <["maxTries" := num 10]> o else o in
  if invalid (get o1 "pollTime") then <["pollTime" := num 100]> o1 else o1.

(** A configuration object the validation leaves as it is. *)
Definition normalised (o : obj) : Prop :=
  invalid (get o "maxTries") = false ∧ invalid (get o "pollTime") = false.

(** Property [k] of [o] is absent, or not a number, or a number below 1. *)
Definition absent_or_invalid (o : obj) (k : string) : Prop :=
  o !! k = None ∨ typeof (get o k) ≠ "number" ∨
  ∃ n, get o k = VNum n ∧ num_lt n (Fin (inject_Z 1)) = true.

(** The object [o'] is [o] after the launcher has written its defaults. *)
Definition written_back (o o' : obj) : Prop :=
  (absent_or_invalid o "maxTries" → o' !! "maxTries" = Some (num 10)) ∧
  (absent_or_invalid o "pollTime" → o' !! "pollTime" = Some (num 100)) ∧
  (¬ absent_or_invalid o "maxTries" → o' !! "maxTries" = o !! "maxTries") ∧
  (¬ absent_or_invalid o "pollTime" → o' !! "pollTime" = o !! "pollTime") ∧
  (∀ k, k ≠ "maxTries" → k ≠ "pollTime" → o' !! k = o !! k).

(** The least counter value that is not below [m]: [testCount < m] holds
    exactly for the counters below [cap m], when [m] is not [Infinity]. *)
Definition cap (m : number) : nat :=
  match m with Fin q => Z.to_nat (Qceiling q) | _ => 0 end.

(** ** Observable calls, phases of a session, atomic steps *)

Inductive event :=
| GetStatus (i : nat)                       (* getStatus(cb), by session i *)
| OnTic (i : nat) (res : value) (n : nat)   (* conf.onTic(res, n) *)
| SuccessTest (i : nat) (arg : value)       (* the success predicate, on arg *)
| AbortTest (i : nat) (arg : value)         (* the abort predicate, on arg *)
| SetTimeout (i : nat) (delay : value)      (* window.setTimeout(performStatusCheck, delay) *)
| OnSuccess (i : nat)                       (* conf.onSuccess() *)
| OnFail (i : nat).                         (* conf.onFail() *)

Inductive phase :=
| Idle        (* the launcher has not yet called performStatusCheck *)
| Fetching    (* getStatus was called, its callback has not run yet *)
| Waiting     (* a timer is pending *)
| Done.       (* a terminal callback was invoked *)

Inductive action :=
| Launch (c : loc)                (* launcher(conf), conf stored at c *)
| Complete (i : nat) (res : obj)  (* the fetcher hands res to session i *)
| Fire (i : nat).                 (* the timer of session i fires *)

Definition sid (e : event) : nat :=
  match e with
  | GetStatus i | OnTic i _ _ | SuccessTest i _ | AbortTest i _
  | SetTimeout i _ | OnSuccess i | OnFail i => i
  end.

Definition is_fetch (i : nat) (e : event) : bool :=
  match e with GetStatus j => bool_decide (i = j) | _ => false end.
Definition is_tic (i : nat) (e : event) : bool :=
  match e with OnTic j _ _ => bool_decide (i = j) | _ => false end.
Definition is_success (i : nat) (e : event) : bool :=
  match e with OnSuccess j => bool_decide (i = j) | _ => false end.
Definition is_fail (i : nat) (e : event) : bool :=
  match e with OnFail j => bool_decide (i = j) | _ => false end.

Fixpoint count (p : event → bool) (tr : list event) : nat :=
  match tr with
  | [] => 0
  | e :: tr' => (if p e then 1 else 0) + count p tr'
  end.

(** The calls made on behalf of session [i], in order. *)
Definition events_of (i : nat) (tr : list event) : list event :=
  List.filter (λ e, bool_decide (sid e = i)) tr.

(** The attempt numbers session [i] handed to [onTic], in order. *)
Definition tic_numbers (i : nat) (tr : list event) : list nat :=
  omap (λ e, match e with
             | OnTic j _ n => if bool_decide (i = j) then Some n else None
             | _ => None
             end) tr.

(** [p] only holds of calls of session [i]. *)
Definition about (i : nat) (p : event → bool) : Prop := ∀ e, p e = true → sid e = i.

(** The argument of every call of a predicate or of [onTic] in [tr] is the
    result [res] itself. *)
Definition unmodified (res : obj) (tr : list event) : Prop :=
  ∀ e, e ∈ tr →
    match e with
    | OnTic _ a _ | SuccessTest _ a | AbortTest _ a => a = VObj res
    | _ => True
    end.

(** The last call of an attempt: a timer is set or a terminal callback runs. *)
Definition is_outcome (e : event) : Prop :=
  match e with
  | SetTimeout _ _ | OnSuccess _ | OnFail _ => True
  | _ => False
  end.

(** An upper bound on the steps a session can still take: [c] is the cap of
    its [maxTries], [tc] the counter. *)
Definition mu (p : phase) (c tc : nat) : nat :=
  match p with
  | Fetching => 2 * (c - tc) + 1
  | Waiting => 2 * Nat.max (c - tc) 1
  | _ => 0
  end.

(** ** The demo fetcher and predicates of the three files *)

Definition readyOnTest : nat := 10.

(** [getStatus]: [reqCount++], then the callback receives
    [{status: reqCount < readyOnTest ? 'notReady' : 'ready'}], synchronously. *)
Definition getStatus (reqCount : nat) : obj * nat :=
  let reqCount := S reqCount in
  ({["status" := VStr (if reqCount <? readyOnTest then "notReady" else "ready")]},
   reqCount).

(** [status === s] for a string literal [s]. *)
Definition strict_eq_str (v : value) (s : string) : bool :=
  match v with VStr s' => bool_decide (s' = s) | _ => false end.

(** ** src/main.js *)

Module MainJs.

Record session := Session { conf : loc; phase_of : phase }.

(** [testCount] is a variable of [pollForStatus], outside the returned
    function: one counter per launcher. *)
Record world := World {
  heap : gmap loc obj;
  testCount : nat;
  sessions : list session;
  trace : list event
}.

Definition init (h : gmap loc obj) : world := World h 0 [] [].


Definition successCondition (status : value) : bool := strict_eq_str status "ready".
Definition abortCondition (status : value) : bool := strict_eq_str status "abort".

(** The session an action is about. *)
Definition target (w : world) (a : action) : nat :=
  match a with
  | Launch _ => length (sessions w)
  | Complete i _ | Fire i => i
  end.

(** The validated [maxTries] of a session is the number [m]. *)
Definition maxTries_of (w : world) (s : session) (m : number) : Prop :=
  ∃ o, heap w !! conf s = Some o ∧ get o "maxTries" = VNum m.

(** Well-formed worlds: the configuration of a launched session is valid,
    no session is idle, calls are made by sessions that exist. *)
Record wf (w : world) : Prop := {
  wf_conf : ∀ i s, sessions w !! i = Some s →
            ∃ o, heap w !! conf s = Some o ∧ normalised o;
  wf_phase : ∀ i s, sessions w !! i = Some s → phase_of s ≠ Idle;
  wf_sid : ∀ e, e ∈ trace w → sid e < length (sessions w)
}.

(** What holds of session [i] at every moment. *)
Record sinv (w : world) (i : nat) (s : session) (m : number) : Prop := {
  s_terminal :
    count (is_success i) (trace w) + count (is_fail i) (trace w)
    = match phase_of s with Done => 1 | _ => 0 end;
  s_fetch_le : count (is_fetch i) (trace w) ≤ testCount w;
  s_fetch_pos : 1 ≤ count (is_fetch i) (trace w);
  s_bound :
    match phase_of s with
    | Waiting => num_lt (num_of_nat (count (is_fetch i) (trace w))) m = true
    | _ => count (is_fetch i) (trace w) = 1 ∨
           num_lt (num_of_nat (count (is_fetch i) (trace w) - 1)) m = true
    end
}.

Section pollForStatus.
Variables statusResultSuccess statusResultAbort : value → bool.

(** [performStatusCheck], up to the call of [getStatus]. *)
Definition performStatusCheck (i : nat) (c : loc) (w : world) : world :=
  World (heap w) (S (testCount w))
        (<[i := Session c Fetching]> (sessions w))
        (trace w ++ [GetStatus i]).

(** The completion handler [function (res) { ... }]. *)
Definition callback (i : nat) (c : loc) (res : obj) (w : world) : option world :=
  o ← heap w !! c;
  let tic := if is_function (get o "onTic")
             then [OnTic i (VObj res) (testCount w)] else [] in
  canStillTry ← count_lt (testCount w) (get o "maxTries");
  let succeeded := statusResultSuccess (get res "status") in
  let aborted := statusResultAbort (get res "status") in
  let tests := [SuccessTest i (get res "status"); AbortTest i (get res "status")] in
  if canStillTry && negb succeeded && negb aborted then
    Some (World (heap w) (testCount w)
                (<[i := Session c Waiting]> (sessions w))
                (trace w ++ tic ++ tests ++ [SetTimeout i (get o "pollTime")]))
  else
    Some (World (heap w) (testCount w)
                (<[i := Session c Done]> (sessions w))
                (trace w ++ tic ++ tests ++
                   [if succeeded then OnSuccess i else OnFail i])).

(** The returned function [function (conf) { ... }]. *)
Definition launch (c : loc) (w : world) : option world :=
  o ← heap w !! c;
  let i := length (sessions w) in
  Some (performStatusCheck i c
          (World (<[c := validate o]> (heap w)) (testCount w)
                 (sessions w ++ [Session c Idle]) (trace w))).

Definition step (w : world) (a : action) : option world :=
  match a with
  | Launch c => launch c w
  | Complete i res =>
      s ← sessions w !! i;
      match phase_of s with
      | Fetching => callback i (conf s) res w
      | _ => None
      end
  | Fire i =>
      s ← sessions w !! i;
      match phase_of s with
      | Waiting => Some (performStatusCheck i (conf s) w)
      | _ => None
      end
  end.

Fixpoint exec (w : world) (sched : list action) : option world :=
  match sched with
  | [] => Some w
  | a :: sched' => w' ← step w a; exec w' sched'
  end.

(** Session [i] is given every turn: its fetches are answered by the
    state-passing fetcher [fetch], at once, and its timers fire. *)
Fixpoint run {FS : Type} (fetch : FS → obj * FS) (fuel : nat) (i : nat)
    (fs : FS) (w : world) : option (FS * world) :=
  match fuel with
  | 0 => Some (fs, w)
  | S fuel' =>
      s ← sessions w !! i;
      match phase_of s with
      | Idle => None
      | Fetching =>
          let '(res, fs') := fetch fs in
          w' ← step w (Complete i res); run fetch fuel' i fs' w'
      | Waiting => w' ← step w (Fire i); run fetch fuel' i fs w'
      | Done => Some (fs, w)
      end
  end.

Definition reachable (h : gmap loc obj) (w : world) : Prop :=
  ∃ sched, exec (init h) sched = Some w.

(** The three shapes of a step. *)
Inductive step_spec (w : world) : action → world → Prop :=
| step_launch c o :
    heap w !! c = Some o →
    step_spec w (Launch c)
      (World (<[c := validate o]> (heap w)) (S (testCount w))
             (sessions w ++ [Session c Fetching])
             (trace w ++ [GetStatus (length (sessions w))]))
| step_complete i res s o m :
    sessions w !! i = Some s → phase_of s = Fetching →
    heap w !! conf s = Some o → get o "maxTries" = VNum m →
    let tic := if is_function (get o "onTic")
               then [OnTic i (VObj res) (testCount w)] else [] in
    let tests := [SuccessTest i (get res "status"); AbortTest i (get res "status")] in
    let succeeded := statusResultSuccess (get res "status") in
    let continue := num_lt (num_of_nat (testCount w)) m
                    && negb succeeded && negb (statusResultAbort (get res "status")) in
    step_spec w (Complete i res)
      (World (heap w) (testCount w)
             (<[i := Session (conf s) (if continue then Waiting else Done)]> (sessions w))
             (trace w ++ tic ++ tests ++
                [if continue then SetTimeout i (get o "pollTime")
                 else if succeeded then OnSuccess i else OnFail i]))
| step_fire i s :
    sessions w !! i = Some s → phase_of s = Waiting →
    step_spec w (Fire i)
      (World (heap w) (S (testCount w))
             (<[i := Session (conf s) Fetching]> (sessions w))
             (trace w ++ [GetStatus i])).
End pollForStatus.

End MainJs.

(** ** src/unnamed/part_000, first script: two-argument [pollForStatus] *)

Module TwoArg.

Record session := Session { conf : loc; phase_of : phase }.

(** As in [src/main.js], [testCount] belongs to the launcher. *)
Record world := World {
  heap : gmap loc obj;
  testCount : nat;
  sessions : list session;
  trace : list event
}.

Definition init (h : gmap loc obj) : world := World h 0 [] [].

Section pollForStatus.
Variable statusResultTest : value → bool.

(** [performStatusCheck], up to the call of [getStatus]; the counter is
    not touched here. *)
Definition performStatusCheck (i : nat) (c : loc) (w : world) : world :=
  World (heap w) (testCount w)
        (<[i := Session c Fetching]> (sessions w))
        (trace w ++ [GetStatus i]).

(** The completion handler: [testCount++], then
    [testCount < conf.maxTries && !statusResultTest(res.status)]; the
    terminal branch tests [res.status === 'ready']. *)
Definition callback (i : nat) (c : loc) (res : obj) (w : world) : option world :=
  o ← heap w !! c;
  let testCount' := S (testCount w) in
  canStillTry ← count_lt testCount' (get o "maxTries");
  let tests := if (canStillTry : bool) then [SuccessTest i (get res "status")] else [] in
  if canStillTry && negb (statusResultTest (get res "status")) then
    Some (World (heap w) testCount'
                (<[i := Session c Waiting]> (sessions w))
                (trace w ++ tests ++ [SetTimeout i (get o "pollTime")]))
  else
    Some (World (heap w) testCount'
                (<[i := Session c Done]> (sessions w))
                (trace w ++ tests ++
                   [if strict_eq_str (get res "status") "ready"
                    then OnSuccess i else OnFail i])).

Definition launch (c : loc) (w : world) : option world :=
  o ← heap w !! c;
  let i := length (sessions w) in
  Some (performStatusCheck i c
          (World (<[c := validate o]> (heap w)) (testCount w)
                 (sessions w ++ [Session c Idle]) (trace w))).

Definition step (w : world) (a : action) : option world :=
  match a with
  | Launch c => launch c w
  | Complete i res =>
      s ← sessions w !! i;
      match phase_of s with
      | Fetching => callback i (conf s) res w
      | _ => None
      end
  | Fire i =>
      s ← sessions w !! i;
      match phase_of s with
      | Waiting => Some (performStatusCheck i (conf s) w)
      | _ => None
      end
  end.

Fixpoint exec (w : world) (sched : list action) : option world :=
  match sched with
  | [] => Some w
  | a :: sched' => w' ← step w a; exec w' sched'
  end.
End pollForStatus.

End TwoArg.

(** ** src/unnamed/part_000, second script: [createStatusPollFunction] *)

Module Create.

(** [testCount] is declared inside the returned function: one counter per
    call of the launcher. *)
Record session := Session { conf : loc; testCount : nat; phase_of : phase }.

Record world := World {
  heap : gmap loc obj;
  sessions : list session;
  trace : list event
}.

Definition init (h : gmap loc obj) : world := World h [] [].

(** [res.status === s]; the result handed to the predicates is an object. *)
Definition status_is (s : string) (res : value) : bool :=
  match res with VObj o => strict_eq_str (get o "status") s | _ => false end.

Definition successCondition : value → bool := status_is "ready".
Definition abortCondition : value → bool := status_is "abort".

(** The session an action is about. *)
Definition target (w : world) (a : action) : nat :=
  match a with
  | Launch _ => length (sessions w)
  | Complete i _ | Fire i => i
  end.

Section createStatusPollFunction.
Variables statusResultSuccess statusResultAbort : value → bool.

Definition performStatusCheck (i : nat) (c : loc) (testCount : nat) (w : world) : world :=
  World (heap w)
        (<[i := Session c (S testCount) Fetching]> (sessions w))
        (trace w ++ [GetStatus i]).

(** The completion handler: the three variables first, then [onTic]. *)
Definition callback (i : nat) (c : loc) (testCount : nat) (res : obj) (w : world)
    : option world :=
  o ← heap w !! c;
  canStillTry ← count_lt testCount (get o "maxTries");
  let succeeded := statusResultSuccess (VObj res) in
  let aborted := statusResultAbort (VObj res) in
  let tests := [SuccessTest i (VObj res); AbortTest i (VObj res)] in
  let tic := if is_function (get o "onTic")
             then [OnTic i (VObj res) testCount] else [] in
  if canStillTry && negb succeeded && negb aborted then
    Some (World (heap w)
                (<[i := Session c testCount Waiting]> (sessions w))
                (trace w ++ tests ++ tic ++ [SetTimeout i (get o "pollTime")]))
  else
    Some (World (heap w)
                (<[i := Session c testCount Done]> (sessions w))
                (trace w ++ tests ++ tic ++
                   [if succeeded then OnSuccess i else OnFail i])).

Definition launch (c : loc) (w : world) : option world :=
  o ← heap w !! c;
  let i := length (sessions w) in
  Some (performStatusCheck i c 0
          (World (<[c := validate o]> (heap w))
                 (sessions w ++ [Session c 0 Idle]) (trace w))).

Definition step (w : world) (a : action) : option world :=
  match a with
  | Launch c => launch c w
  | Complete i res =>
      s ← sessions w !! i;
      match phase_of s with
      | Fetching => callback i (conf s) (testCount s) res w
      | _ => None
      end
  | Fire i =>
      s ← sessions w !! i;
      match phase_of s with
      | Waiting => Some (performStatusCheck i (conf s) (testCount s) w)
      | _ => None
      end
  end.

Fixpoint exec (w : world) (sched : list action) : option world :=
  match sched with
  | [] => Some w
  | a :: sched' => w' ← step w a; exec w' sched'
  end.

Fixpoint run {FS : Type} (fetch : FS → obj * FS) (fuel : nat) (i : nat)
    (fs : FS) (w : world) : option (FS * world) :=
  match fuel with
  | 0 => Some (fs, w)
  | S fuel' =>
      s ← sessions w !! i;
      match phase_of s with
      | Idle => None
      | Fetching =>
          let '(res, fs') := fetch fs in
          w' ← step w (Complete i res); run fetch fuel' i fs' w'
      | Waiting => w' ← step w (Fire i); run fetch fuel' i fs w'
      | Done => Some (fs, w)
      end
  end.

Definition reachable (h : gmap loc obj) (w : world) : Prop :=
  ∃ sched, exec (init h) sched = Some w.

(** The three shapes of a step. *)
Inductive step_spec (w : world) : action → world → Prop :=
| step_launch c o :
    heap w !! c = Some o →
    step_spec w (Launch c)
      (World (<[c := validate o]> (heap w))
             (sessions w ++ [Session c 1 Fetching])
             (trace w ++ [GetStatus (length (sessions w))]))
| step_complete i res s o m :
    sessions w !! i = Some s → phase_of s = Fetching →
    heap w !! conf s = Some o → get o "maxTries" = VNum m →
    let tests := [SuccessTest i (VObj res); AbortTest i (VObj res)] in
    let tic := if is_function (get o "onTic")
               then [OnTic i (VObj res) (testCount s)] else [] in
    let succeeded := statusResultSuccess (VObj res) in
    let continue := num_lt (num_of_nat (testCount s)) m
                    && negb succeeded && negb (statusResultAbort (VObj res)) in
    step_spec w (Complete i res)
      (World (heap w)
             (<[i := Session (conf s) (testCount s) (if continue then Waiting else Done)]>
                (sessions w))
             (trace w ++ tests ++ tic ++
                [if continue then SetTimeout i (get o "pollTime")
                 else if succeeded then OnSuccess i else OnFail i]))
| step_fire i s :
    sessions w !! i = Some s → phase_of s = Waiting →
    step_spec w (Fire i)
      (World (heap w)
             (<[i := Session (conf s) (S (testCount s)) Fetching]> (sessions w))
             (trace w ++ [GetStatus i])).
End createStatusPollFunction.

End Create.

(** ** Configurations, results and schedules of the examples *)

(** [{maxTries: ..., pollTime: 100, onSuccess: ..., onFail: ..., onTic: ...}],
    the shape of the configuration at the end of [src/main.js]. *)
Definition config (maxTries : value) : obj :=
  {[ "maxTries" := maxTries; "pollTime" := num 100;
     "onSuccess" := VFun 1; "onFail" := VFun 2; "onTic" := VFun 3 ]}.

Definition notReady : obj := {[ "status" := VStr "notReady" ]}.
Definition ready_detail : obj := {[ "status" := VStr "ready"; "detail" := num 7 ]}.
Definition status_done : obj := {[ "status" := VStr "done" ]}.

(** [{maxTries: -1, pollTime: 0, ...}]: both values are replaced. *)
Definition bad_config : obj :=
  <["pollTime" := num 0]> (config (num (-1))).

(** The heap of the script of [src/main.js]: one configuration, [maxTries: 20]. *)
Definition demo_heap : gmap loc obj := {[ 0 := config (num 20) ]}.

(** A success test other than the one of the demo: [status === 'done']. *)
Definition doneCondition (status : value) : bool := strict_eq_str status "done".

(** One attempt that is not the last, and the last one. *)
Definition attempt (i : nat) (res : obj) : list action := [Complete i res; Fire i].
Definition last_attempt (i : nat) (res : obj) : list action := [Complete i res].

(** A session with [maxTries] 5 alone, never ready. *)
Definition alone_sched : list action :=
  Launch 1 :: attempt 0 notReady ++ attempt 0 notReady ++ attempt 0 notReady ++
  attempt 0 notReady ++ last_attempt 0 notReady.

(** Two sessions of one launcher, one after the other, never ready:
    [maxTries] 3 then 5. *)
Definition two_sessions_heap : gmap loc obj :=
  {[ 0 := config (num 3); 1 := config (num 5) ]}.
Definition two_sessions_sched : list action :=
  Launch 0 :: attempt 0 notReady ++ attempt 0 notReady ++ last_attempt 0 notReady ++
  Launch 1 :: attempt 1 notReady ++ last_attempt 1 notReady.

(** The same, [maxTries] 1 then 3. *)
Definition tic_heap : gmap loc obj :=
  {[ 0 := config (num 1); 1 := config (num 3) ]}.
Definition tic_sched : list action :=
  Launch 0 :: last_attempt 0 notReady ++
  Launch 1 :: attempt 1 notReady ++ last_attempt 1 notReady.

(** The same, [maxTries] 2.5 twice. *)
Definition two_and_a_half : value := VNum (Fin (5 # 2)).
Definition fraction_heap : gmap loc obj :=
  {[ 0 := config two_and_a_half; 1 := config two_and_a_half ]}.
Definition fraction_sched : list action :=
  Launch 0 :: attempt 0 notReady ++ attempt 0 notReady ++ last_attempt 0 notReady ++
  Launch 1 :: last_attempt 1 notReady.

(** ** Further counters on traces *)

Definition is_timeout (i : nat) (e : event) : bool :=
  match e with SetTimeout j _ => bool_decide (i = j) | _ => false end.

Definition is_any_fetch (e : event) : bool :=
  match e with GetStatus _ => true | _ => false end.


(** How the calls of session [i] of [src/main.js] relate, [o] being its
    configuration object. *)
Record session_calls (w : MainJs.world) (i : nat) (s : MainJs.session) (o : obj)
    : Prop := {
  calls_seq :
    count (is_fetch i) (MainJs.trace w)
    = count (is_timeout i) (MainJs.trace w)
      + match MainJs.phase_of s with Waiting => 0 | _ => 1 end;
  calls_tic :
    count (is_tic i) (MainJs.trace w)
    = if is_function (get o "onTic")
      then count (is_fetch i) (MainJs.trace w)
           - match MainJs.phase_of s with Fetching => 1 | _ => 0 end
      else 0;
  calls_delay : ∀ d, SetTimeout i d ∈ MainJs.trace w → d = get o "pollTime"
}.

(** ** Invariants of createStatusPollFunction *)

(** Well-formed worlds of [createStatusPollFunction]. *)
Record create_wf (w : Create.world) : Prop := {
  cwf_conf : ∀ i s, Create.sessions w !! i = Some s →
             ∃ o, Create.heap w !! Create.conf s = Some o ∧ normalised o;
  cwf_phase : ∀ i s, Create.sessions w !! i = Some s → Create.phase_of s ≠ Idle;
  cwf_sid : ∀ e, e ∈ Create.trace w → sid e < length (Create.sessions w)
}.

(** The validated [maxTries] of a session is the number [m]. *)
Definition create_maxTries (w : Create.world) (s : Create.session) (m : number) : Prop :=
  ∃ o, Create.heap w !! Create.conf s = Some o ∧ get o "maxTries" = VNum m.

(** Attempts of a session whose result has been delivered. *)
Definition delivered (s : Create.session) : nat :=
  Create.testCount s - match Create.phase_of s with Fetching => 1 | _ => 0 end.

(** What holds of session [i] of [createStatusPollFunction] at every
    moment; [ss] and [sa] are the two predicates. *)
Record create_sinv (ss sa : value → bool) (w : Create.world) (i : nat)
    (s : Create.session) (o : obj) (m : number) : Prop := {
  cs_terminal :
    count (is_success i) (Create.trace w) + count (is_fail i) (Create.trace w)
    = match Create.phase_of s with Done => 1 | _ => 0 end;
  cs_count : Create.testCount s = count (is_fetch i) (Create.trace w);
  cs_pos : 1 ≤ Create.testCount s;
  cs_bound :
    match Create.phase_of s with
    | Waiting => num_lt (num_of_nat (Create.testCount s)) m = true
    | _ => Create.testCount s = 1 ∨
           num_lt (num_of_nat (Create.testCount s - 1)) m = true
    end;
  cs_tics :
    tic_numbers i (Create.trace w)
    = if is_function (get o "onTic") then seq 1 (delivered s) else [];
  cs_success :
    count (is_success i) (Create.trace w) = 0 ∨
    ∃ a, SuccessTest i a ∈ Create.trace w ∧ ss a = true;
  cs_exhausted :
    Create.phase_of s = Done →
    (∃ a, SuccessTest i a ∈ Create.trace w ∧ ss a = true) ∨
    (∃ a, AbortTest i a ∈ Create.trace w ∧ sa a = true) ∨
    num_lt (num_of_nat (Create.testCount s)) m = false
}.

(** The action is a step of session [i]. *)
Definition acts_on (i : nat) (a : action) : bool :=
  match a with
  | Complete j _ | Fire j => bool_decide (i = j)
  | Launch _ => false
  end.

(** ** Worlds and inputs of the further examples *)

(** [{maxTries: ...}], nothing else. *)
Definition small_conf (maxTries : value) : obj := {[ "maxTries" := maxTries ]}.

Definition status_abort : obj := {[ "status" := VStr "abort" ]}.

(** A fetcher that is never ready. *)
Definition never_ready (fs : unit) : obj * unit := (notReady, fs).

(** The world the demo launcher of each file is in after a schedule. *)
Definition main_js_after (h : gmap loc obj) (sched : list action) : MainJs.world :=
  default (MainJs.init h)
    (MainJs.exec MainJs.successCondition MainJs.abortCondition (MainJs.init h) sched).

Definition create_after (h : gmap loc obj) (sched : list action) : Create.world :=
  default (Create.init h)
    (Create.exec Create.successCondition Create.abortCondition (Create.init h) sched).

Definition two_arg_after (h : gmap loc obj) (sched : list action) : TwoArg.world :=
  default (TwoArg.init h) (TwoArg.exec doneCondition (TwoArg.init h) sched).

(** * Properties *)

(** ** Numbers, counting, validation *)

Lemma Qlt_inject_Z_ceiling (z : Z) (q : Q) :
  (inject_Z z < q)%Q ↔ (z < Qceiling q)%Z.
Proof.
  split; intros H.
  - rewrite Zlt_Qlt. eapply Qlt_le_trans; [exact H | apply Qle_ceiling].
  - assert (z ≤ Qceiling q - 1)%Z as Hle by lia.
    eapply Qle_lt_trans; [| apply Qceiling_lt].
    by rewrite <- Zle_Qle.
Qed.

Lemma num_lt_Fin (z : Z) (q : Q) :
  num_lt (Fin (inject_Z z)) (Fin q) = true ↔ (z < Qceiling q)%Z.
Proof.
  rewrite <- Qlt_inject_Z_ceiling. unfold num_lt. rewrite negb_true_iff.
  split.
  - intros H. apply Qnot_le_lt. intros Hle. apply Qle_bool_iff in Hle. congruence.
  - intros H. destruct (Qle_bool q (inject_Z z)) eqn:E; [|done].
    apply Qle_bool_iff in E. by apply Qlt_not_le in H.
Qed.



Lemma count_lt_cap (n : nat) (m : number) :
  m ≠ PInf → (num_lt (num_of_nat n) m = true ↔ n < cap m).
Proof.
  intros Hm. destruct m as [q| | |]; simpl cap; try done.
  - unfold num_of_nat. rewrite num_lt_Fin. lia.
  - unfold num_lt. split; [done | lia].
  - unfold num_lt. split; [done | lia].
Qed.

Lemma count_app p tr1 tr2 : count p (tr1 ++ tr2) = count p tr1 + count p tr2.
Proof. induction tr1 as [|e tr1 IH]; simpl; [done | rewrite IH; lia]. Qed.

Lemma count_none p tr : (∀ e, e ∈ tr → p e = false) → count p tr = 0.
Proof.
  induction tr as [|e tr IH]; simpl; intros H; [done |].
  rewrite (H e) by left. rewrite IH; [done |]. intros e' He'. apply H. by right.
Qed.


Lemma get_insert_eq (o : obj) k v : get (<[k := v]> o) k = v.
Proof. unfold get. by rewrite lookup_insert_eq. Qed.

Lemma get_insert_ne (o : obj) k k' v : k ≠ k' → get (<[k := v]> o) k' = get o k'.
Proof. intros. unfold get. by rewrite lookup_insert_ne. Qed.

Lemma invalid_num_10 : invalid (num 10) = false.
Proof. reflexivity. Qed.
Lemma invalid_num_100 : invalid (num 100) = false.
Proof. reflexivity. Qed.

Lemma validate_normalised (o : obj) : normalised (validate o).
Proof.
  unfold normalised, validate.
  destruct (invalid (get o "maxTries")) eqn:E1;
    (match goal with |- context [invalid (get ?o1 "pollTime")] =>
       destruct (invalid (get o1 "pollTime")) eqn:E2 end);
    rewrite ?get_insert_eq, ?(get_insert_ne _ "pollTime" "maxTries"),
      ?get_insert_eq by done;
    auto using invalid_num_10, invalid_num_100.
Qed.

Lemma validate_id (o : obj) : normalised o → validate o = o.
Proof. intros [H1 H2]. unfold validate. by rewrite H1, H2. Qed.

Lemma invalid_false_num (v : value) :
  invalid v = false → ∃ n, v = VNum n ∧ num_lt n (Fin (inject_Z 1)) = false.
Proof.
  unfold invalid. destruct v; simpl; try done.
  intros H. eauto.
Qed.

Lemma num_lt_mono (a b : nat) (m : number) :
  a ≤ b → num_lt (num_of_nat b) m = true → num_lt (num_of_nat a) m = true.
Proof.
  intros Hab. destruct m as [q| | |]; try done.
  unfold num_of_nat. rewrite !num_lt_Fin. lia.
Qed.


(** ** The validation of the configuration object *)


Lemma absent_or_invalid_spec (o : obj) (k : string) :
  absent_or_invalid o k ↔ invalid (get o k) = true.
Proof.
  unfold absent_or_invalid, invalid. split.
  - intros [H | [H | (n & Hn & Hlt)]].
    + unfold get. rewrite H. done.
    + rewrite bool_decide_eq_true_2 by done. done.
    + rewrite Hn. simpl. by rewrite Hlt.
  - intros H. apply orb_prop in H as [H | H].
    + apply bool_decide_eq_true in H. auto.
    + destruct (get o k) as [| | | n | | |] eqn:E; try done. right. right. eauto.
Qed.

Lemma validate_maxTries (o : obj) :
  validate o !! "maxTries"
  = if invalid (get o "maxTries") then Some (num 10) else o !! "maxTries".
Proof.
  unfold validate.
  destruct (invalid (get o "maxTries")) eqn:E1;
    (match goal with |- context [invalid (get ?o1 "pollTime")] =>
       destruct (invalid (get o1 "pollTime")) eqn:E2 end);
    rewrite ?(lookup_insert_ne _ "pollTime" "maxTries"), ?lookup_insert_eq by done; done.
Qed.

Lemma validate_pollTime (o : obj) :
  validate o !! "pollTime"
  = if invalid (get o "pollTime") then Some (num 100) else o !! "pollTime".
Proof.
  unfold validate.
  destruct (invalid (get o "maxTries")) eqn:E1;
    rewrite ?(get_insert_ne _ "maxTries" "pollTime") by done;
    destruct (invalid (get o "pollTime")) eqn:E2;
    rewrite ?lookup_insert_eq, ?(lookup_insert_ne _ "maxTries" "pollTime") by done; done.
Qed.

Lemma validate_other (o : obj) (k : string) :
  k ≠ "maxTries" → k ≠ "pollTime" → validate o !! k = o !! k.
Proof.
  intros H1 H2. unfold validate.
  destruct (invalid (get o "maxTries")) eqn:E1;
    (match goal with |- context [invalid (get ?o1 "pollTime")] =>
       destruct (invalid (get o1 "pollTime")) eqn:E2 end);
    rewrite ?lookup_insert_ne by done; done.
Qed.



(** ** src/main.js *)

Module MainJsTheory.
Import MainJs.


Section main_js_facts.
Variables statusResultSuccess statusResultAbort : value → bool.
Abbreviation step := (step statusResultSuccess statusResultAbort).
Abbreviation exec := (exec statusResultSuccess statusResultAbort).
Abbreviation reachable := (reachable statusResultSuccess statusResultAbort).
Abbreviation step_spec := (step_spec statusResultSuccess statusResultAbort).


Lemma exec_app w sched1 sched2 :
  exec w (sched1 ++ sched2) = w' ← exec w sched1; exec w' sched2.
Proof.
  revert w. induction sched1 as [|a sched1 IH]; intros w; simpl; [done |].
  destruct (step w a) as [w1|]; simpl; [apply IH | done].
Qed.

Lemma reachable_step h w a w' : reachable h w → step w a = Some w' → reachable h w'.
Proof.
  intros [sched Hs] Ha. exists (sched ++ [a]).
  rewrite exec_app, Hs. simpl. by rewrite Ha.
Qed.

Lemma reachable_ind (P : world → Prop) h :
  P (init h) →
  (∀ w a w', reachable h w → P w → step w a = Some w' → P w') →
  ∀ w, reachable h w → P w.
Proof.
  intros H0 Hstep w [sched Hs]. revert w Hs.
  induction sched as [|a sched IH] using rev_ind; intros w Hs.
  - simpl in Hs. by injection Hs as <-.
  - rewrite exec_app in Hs.
    destruct (exec (init h) sched) as [w1|] eqn:E1; simpl in Hs; [|done].
    destruct (step w1 a) as [w2|] eqn:E2; simpl in Hs; [|done].
    injection Hs as <-. eapply Hstep; [by exists sched | by apply IH | done].
Qed.


Lemma step_inv w a w' : step w a = Some w' → step_spec w a w'.
Proof.
  destruct a as [c | i res | i]; simpl.
  - unfold launch. destruct (heap w !! c) as [o|] eqn:E; simpl; [|done].
    intros [= <-]. unfold performStatusCheck. simpl.
    replace (<[length (sessions w) := Session c Fetching]> (sessions w ++ [Session c Idle]))
      with (sessions w ++ [Session c Fetching]).
    + by constructor.
    + rewrite insert_app_r_alt by lia. by rewrite Nat.sub_diag.
  - destruct (sessions w !! i) as [s|] eqn:Es; simpl; [|done].
    destruct (phase_of s) eqn:Ep; try done.
    unfold callback. destruct (heap w !! conf s) as [o|] eqn:Eo; simpl; [|done].
    destruct (get o "maxTries") as [| | | m | | |] eqn:Em; simpl; try done.
    intros H.
    pose proof (step_complete statusResultSuccess statusResultAbort w i res s o m Es Ep Eo Em) as Hc. simpl in Hc.
    destruct (num_lt _ m && _ && _); injection H as <-; exact Hc.
  - destruct (sessions w !! i) as [s|] eqn:Es; simpl; [|done].
    destruct (phase_of s) eqn:Ep; try done.
    intros [= <-]. by constructor.
Qed.


Lemma wf_init h : wf (init h).
Proof. split; simpl; intros *; try rewrite lookup_nil; try done. by intros ?%elem_of_nil. Qed.

(** Launching on a configuration some session already uses does not change
    the object: it is already valid. *)
Lemma launch_heap_frame w c o j s :
  wf w → heap w !! c = Some o → sessions w !! j = Some s →
  <[c := validate o]> (heap w) !! conf s = heap w !! conf s.
Proof.
  intros Hwf Hc Hj. destruct (decide (c = conf s)) as [->|Hne].
  - destruct (wf_conf w Hwf j s Hj) as (o' & Ho' & Hn).
    rewrite lookup_insert_eq. rewrite Hc in Ho'. injection Ho' as ->.
    rewrite validate_id by done. done.
  - by rewrite lookup_insert_ne.
Qed.

Lemma step_frame w a w' :
  wf w → step w a = Some w' →
  (∃ evs, trace w' = trace w ++ evs ∧ ∀ e, e ∈ evs → sid e = target w a) ∧
  (∀ j, j ≠ target w a → sessions w' !! j = sessions w !! j) ∧
  (∀ j s, sessions w !! j = Some s → heap w' !! conf s = heap w !! conf s) ∧
  testCount w ≤ testCount w' ∧
  length (sessions w) ≤ length (sessions w').
Proof.
  intros Hwf Hstep. apply step_inv in Hstep.
  destruct Hstep as [c o Hc | i res s o m Hs Hp Ho Hm tic tests succeeded continue | i s Hs Hp];
    simpl.
  - split_and!.
    + eexists. split; [done |]. by intros e ->%list_elem_of_singleton.
    + intros j Hne. destruct (decide (j < length (sessions w))).
      * by rewrite lookup_app_l.
      * rewrite !lookup_ge_None_2; [done | lia | rewrite length_app; simpl; lia].
    + intros j s Hj. by eapply launch_heap_frame.
    + lia.
    + rewrite length_app. lia.
  - split_and!.
    + eexists. split; [done |]. intros e He.
      subst tic tests.
      destruct (is_function _); destruct continue; try destruct succeeded;
        repeat (apply elem_of_cons in He as [-> | He]; [done |]);
        by apply elem_of_nil in He.
    + intros j Hne. by rewrite list_lookup_insert_ne.
    + done.
    + lia.
    + by rewrite length_insert.
  - split_and!.
    + eexists. split; [done |]. by intros e ->%list_elem_of_singleton.
    + intros j Hne. by rewrite list_lookup_insert_ne.
    + done.
    + lia.
    + by rewrite length_insert.
Qed.

Lemma wf_step w a w' : wf w → step w a = Some w' → wf w'.
Proof.
  intros Hwf Hstep.
  destruct (step_frame w a w' Hwf Hstep) as ((evs & Htr & Hevs) & Hother & Hheap & _ & Hlen).
  pose proof (step_inv _ _ _ Hstep) as Hspec.
  split.
  - intros j s' Hj.
    destruct Hspec as [c o Hc | i res s o m Hs Hp Ho Hm tic tests succeeded continue | i s Hs Hp];
      simpl in *.
    + apply lookup_app_Some in Hj as [Hj | [Hge Hj]].
      * rewrite (launch_heap_frame w c o j s') by done. by eapply wf_conf.
      * apply list_lookup_singleton_Some in Hj as [_ <-]. simpl.
        rewrite lookup_insert_eq. eauto using validate_normalised.
    + apply list_lookup_insert_Some in Hj as [(-> & <- & _) | [Hne Hj]]; simpl.
      * by eapply wf_conf.
      * by eapply wf_conf.
    + apply list_lookup_insert_Some in Hj as [(-> & <- & _) | [Hne Hj]]; simpl.
      * by eapply wf_conf.
      * by eapply wf_conf.
  - intros j s' Hj.
    destruct Hspec as [c o Hc | i res s o m Hs Hp Ho Hm tic tests succeeded continue | i s Hs Hp];
      simpl in *.
    + apply lookup_app_Some in Hj as [Hj | [Hge Hj]].
      * by eapply wf_phase.
      * by apply list_lookup_singleton_Some in Hj as [_ <-].
    + apply list_lookup_insert_Some in Hj as [(-> & <- & _) | [Hne Hj]]; simpl.
      * by destruct continue.
      * by eapply wf_phase.
    + apply list_lookup_insert_Some in Hj as [(-> & <- & _) | [Hne Hj]]; simpl.
      * done.
      * by eapply wf_phase.
  - intros e He. rewrite Htr in He. apply elem_of_app in He as [He | He].
    + pose proof (wf_sid w Hwf e He). lia.
    + rewrite (Hevs e He).
      destruct Hspec as [c o Hc | i res s o m Hs Hp Ho Hm tic tests succeeded continue | i s Hs Hp];
        simpl.
      * rewrite length_app. simpl. lia.
      * rewrite length_insert. by eapply lookup_lt_Some.
      * rewrite length_insert. by eapply lookup_lt_Some.
Qed.

Lemma reachable_wf h w : reachable h w → wf w.
Proof.
  revert w. apply reachable_ind; [apply wf_init |].
  intros w a w' _ Hwf Hstep. by eapply wf_step.
Qed.

(** ** Counting the calls of one session *)


Lemma about_is_fetch i : about i (is_fetch i).
Proof. intros [] H; simpl in *; try done; by apply bool_decide_eq_true in H. Qed.
Lemma about_is_tic i : about i (is_tic i).
Proof. intros [] H; simpl in *; try done; by apply bool_decide_eq_true in H. Qed.
Lemma about_is_success i : about i (is_success i).
Proof. intros [] H; simpl in *; try done; by apply bool_decide_eq_true in H. Qed.
Lemma about_is_fail i : about i (is_fail i).
Proof. intros [] H; simpl in *; try done; by apply bool_decide_eq_true in H. Qed.

Lemma count_other i p t tr evs :
  about i p → (∀ e, e ∈ evs → sid e = t) → t ≠ i →
  count p (tr ++ evs) = count p tr.
Proof.
  intros Hp Hevs Hne. rewrite count_app, (count_none p evs); [lia |].
  intros e He. destruct (p e) eqn:E; [|done].
  apply Hp in E. apply Hevs in He. congruence.
Qed.

Lemma count_fresh i p w :
  about i p → wf w → length (sessions w) ≤ i → count p (trace w) = 0.
Proof.
  intros Hp Hwf Hi. apply count_none. intros e He.
  destruct (p e) eqn:E; [|done]. apply Hp in E.
  pose proof (wf_sid w Hwf e He). lia.
Qed.

Lemma is_fetch_self i : is_fetch i (GetStatus i) = true.
Proof. simpl. by apply bool_decide_eq_true. Qed.
Lemma is_success_self i : is_success i (OnSuccess i) = true.
Proof. simpl. by apply bool_decide_eq_true. Qed.
Lemma is_fail_self i : is_fail i (OnFail i) = true.
Proof. simpl. by apply bool_decide_eq_true. Qed.



Lemma maxTries_of_step w a w' i s s' m :
  wf w → step w a = Some w' →
  sessions w !! i = Some s → sessions w' !! i = Some s' →
  maxTries_of w' s' m → conf s' = conf s ∧ maxTries_of w s m.
Proof.
  intros Hwf Hstep Hs Hs' (o & Ho & Hm).
  destruct (step_frame w a w' Hwf Hstep) as (_ & Hother & Hheap & _).
  assert (conf s' = conf s) as Hc.
  { destruct (decide (i = target w a)) as [Heq | Hne].
    - apply step_inv in Hstep.
      destruct Hstep as [c o0 Hc | j res s0 o0 m0 Hs0 Hp Ho0 Hm0 tic tests succeeded continue
                        | j s0 Hs0 Hp]; simpl in *.
      + apply lookup_lt_Some in Hs. lia.
      + subst j. rewrite list_lookup_insert_eq in Hs' by (by eapply lookup_lt_Some).
        injection Hs' as <-. simpl. congruence.
      + subst j. rewrite list_lookup_insert_eq in Hs' by (by eapply lookup_lt_Some).
        injection Hs' as <-. simpl. congruence.
    - rewrite Hother in Hs' by done. congruence. }
  split; [done |]. exists o. split; [|done].
  rewrite <- (Hheap i s Hs). by rewrite <- Hc.
Qed.

Lemma sinv_step w a w' :
  wf w →
  (∀ i s m, sessions w !! i = Some s → maxTries_of w s m → sinv w i s m) →
  step w a = Some w' →
  ∀ i s m, sessions w' !! i = Some s → maxTries_of w' s m → sinv w' i s m.
Proof.
  intros Hwf IH Hstep i s' m Hs' Hm'.
  destruct (step_frame w a w' Hwf Hstep) as ((evs & Htr & Hevs) & Hother & Hheap & Htc & _).
  destruct (decide (i = target w a)) as [Heq | Hne].
  - pose proof (step_inv _ _ _ Hstep) as Hspec.
    destruct Hspec as [c o Hc | j res s o m0 Hs Hp Ho Hm0 tic tests succeeded continue
                      | j s Hs Hp]; simpl in *.
    + (* a new session *)
      subst i. rewrite lookup_app_r in Hs' by lia. rewrite Nat.sub_diag in Hs'.
      injection Hs' as <-.
      assert (∀ p, about (length (sessions w)) p → count p (trace w) = 0) as H0.
      { intros p Hp. by eapply count_fresh. }
      split; simpl; rewrite !count_app; simpl;
        rewrite ?bool_decide_eq_true_2 by done;
        rewrite ?(H0 _ (about_is_fetch _)), ?(H0 _ (about_is_success _)),
          ?(H0 _ (about_is_fail _)); simpl; try lia; by left.
    + (* the completion handler of session i *)
      subst j.
      rewrite list_lookup_insert_eq in Hs' by (by eapply lookup_lt_Some).
      injection Hs' as <-.
      assert (maxTries_of w s m) as Hm.
      { destruct Hm' as (o' & Ho' & Hmo'). simpl in Ho'. by exists o'. }
      assert (m0 = m) as ->.
      { destruct Hm as (o' & Ho' & Hmo'). congruence. }
      destruct (IH i s m Hs Hm) as [I1 I2 I3 I4]. rewrite Hp in I1, I4.
      assert (count (is_fetch i)
                (tic ++ [SuccessTest i (get res "status"); AbortTest i (get res "status");
                         if continue then SetTimeout i (get o "pollTime")
                         else if succeeded then OnSuccess i else OnFail i]) = 0) as Hf.
      { subst tic. by destruct (is_function _), continue, succeeded. }
      split; cbn [trace phase_of testCount]; rewrite (count_app _ (trace w)); rewrite ?Hf.
      * rewrite (count_app _ (trace w)). subst tic tests.
        destruct (is_function _), continue, succeeded; simpl;
          rewrite ?bool_decide_eq_true_2 by done; clear -I1; lia.
      * clear -I2. lia.
      * clear -I3. lia.
      * rewrite Nat.add_0_r. destruct continue eqn:Ec; [|done].
        subst continue. apply andb_prop in Ec as [Ec _]. apply andb_prop in Ec as [Ec _].
        by eapply num_lt_mono.
    + (* the timer of session i fires *)
      subst j.
      rewrite list_lookup_insert_eq in Hs' by (by eapply lookup_lt_Some).
      injection Hs' as <-.
      assert (maxTries_of w s m) as Hm.
      { destruct Hm' as (o' & Ho' & Hmo'). simpl in Ho'. by exists o'. }
      destruct (IH i s m Hs Hm) as [I1 I2 I3 I4]. rewrite Hp in I1, I4.
      split; simpl; rewrite !count_app; simpl; rewrite ?bool_decide_eq_true_2 by done;
        simpl; try lia.
      right. by replace (count (is_fetch i) (trace w) + 1 - 1)
               with (count (is_fetch i) (trace w)) by lia.
  - (* a step of another session *)
    rewrite Hother in Hs' by done.
    assert (maxTries_of w s' m) as Hm.
    { destruct Hm' as (o' & Ho' & Hmo'). exists o'. by rewrite <- (Hheap i s' Hs'). }
    destruct (IH i s' m Hs' Hm) as [I1 I2 I3 I4].
    assert (∀ p, about i p → count p (trace w') = count p (trace w)) as Hsame.
    { intros p Hp. rewrite Htr. eapply count_other; [done | done | congruence]. }
    split; rewrite ?(Hsame _ (about_is_fetch _)), ?(Hsame _ (about_is_success _)),
        ?(Hsame _ (about_is_fail _)); try done. lia.
Qed.

Lemma reachable_sinv h w i s m :
  reachable h w → sessions w !! i = Some s → maxTries_of w s m → sinv w i s m.
Proof.
  intros Hr. revert i s m. revert w Hr.
  apply (reachable_ind
           (λ w, ∀ i s m, sessions w !! i = Some s → maxTries_of w s m → sinv w i s m)).
  - intros i s m Hs. simpl in Hs. by rewrite lookup_nil in Hs.
  - intros w a w' Hr IH Hstep. eapply sinv_step; eauto using reachable_wf.
Qed.

(** ** Bound on the number of fetches *)

Lemma normalised_maxTries o q :
  normalised o → get o "maxTries" = VNum (Fin q) → (1 ≤ Qceiling q)%Z.
Proof.
  intros [H _] Hq. rewrite Hq in H. unfold invalid in H. simpl in H.
  destruct (num_lt (Fin q) (Fin (inject_Z 1))) eqn:E; [done |].
  unfold num_lt in E. apply negb_false_iff, Qle_bool_iff in E.
  change 1%Z with (Qceiling (inject_Z 1)). by apply Qceiling_resp_le.
Qed.


(** ** Progress and termination *)



(** A session that is not done can take its next step. *)
Lemma complete_enabled w i s res :
  wf w → sessions w !! i = Some s → phase_of s = Fetching →
  is_Some (step w (Complete i res)).
Proof.
  intros Hwf Hs Hp. simpl. rewrite Hs. simpl. rewrite Hp.
  destruct (wf_conf w Hwf i s Hs) as (o & Ho & [Hn _]).
  apply invalid_false_num in Hn as (n & Hn & _).
  unfold callback. rewrite Ho. simpl. rewrite Hn. simpl.
  by destruct (_ && _ && _).
Qed.

Lemma fire_enabled w i s :
  sessions w !! i = Some s → phase_of s = Waiting → is_Some (step w (Fire i)).
Proof. intros Hs Hp. simpl. rewrite Hs. simpl. by rewrite Hp. Qed.

Local Arguments MainJs.step : simpl never.





(** At the end of an attempt the branch taken depends on [succeeded] alone. *)
Lemma terminal_decision w i res w' s' :
  step w (Complete i res) = Some w' →
  sessions w' !! i = Some s' → phase_of s' = Done →
  ∃ pre, trace w' = pre ++ [if statusResultSuccess (get res "status")
                            then OnSuccess i else OnFail i].
Proof.
  intros Hstep Hs' Hp'. apply step_inv in Hstep.
  inversion Hstep as [| j res' s0 o m0 Hs0 Hp0 Ho Hm0 tic tests succeeded continue |];
    subst.
  simpl in Hs'. rewrite list_lookup_insert_eq in Hs' by (by eapply lookup_lt_Some).
  injection Hs' as <-. simpl in Hp'.
  destruct continue; [done |]. simpl.
  exists (trace w ++ tic ++ tests). by rewrite <- !app_assoc.
Qed.

Local Arguments MainJs.step : simpl nomatch.

Lemma launch_spec w c o :
  heap w !! c = Some o →
  step w (Launch c)
  = Some (World (<[c := validate o]> (heap w)) (S (testCount w))
                (<[length (sessions w) := Session c Fetching]>
                   (sessions w ++ [Session c Idle]))
                (trace w ++ [GetStatus (length (sessions w))])).
Proof. intros H. unfold MainJs.step, launch. rewrite H. done. Qed.


(** The attempt number [onTic] receives is the counter of the launcher:
    for the first attempt of a session it is one more than the attempts
    all sessions of the launcher had started before. *)
Lemma first_tic_number w c w1 res w2 o :
  step w (Launch c) = Some w1 →
  step w1 (Complete (length (sessions w)) res) = Some w2 →
  heap w1 !! c = Some o → is_function (get o "onTic") = true →
  ∃ x,
    trace w2
    = trace w ++ [GetStatus (length (sessions w));
                  OnTic (length (sessions w)) (VObj res) (S (testCount w));
                  SuccessTest (length (sessions w)) (get res "status");
                  AbortTest (length (sessions w)) (get res "status"); x].
Proof.
  intros H1%step_inv H2%step_inv Ho Hf.
  inversion H1 as [c0 o0 Hc0 | |]; subst. simpl in *.
  inversion H2 as [| j res' s o' m Hs Hp Ho' Hm tic tests succeeded continue |]; subst.
  simpl in *. rewrite lookup_app_r in Hs by lia. rewrite Nat.sub_diag in Hs.
  injection Hs as <-. simpl in *. rewrite Ho in Ho'. injection Ho' as <-.
  subst tic. rewrite Hf. simpl. rewrite <- app_assoc. simpl. eauto.
Qed.

End main_js_facts.
End MainJsTheory.

(** ** createStatusPollFunction *)

Module CreateTheory.
Import Create.

Section create_facts.
Variables statusResultSuccess statusResultAbort : value → bool.
Abbreviation step := (step statusResultSuccess statusResultAbort).
Abbreviation exec := (exec statusResultSuccess statusResultAbort).
Abbreviation reachable := (reachable statusResultSuccess statusResultAbort).
Abbreviation step_spec := (step_spec statusResultSuccess statusResultAbort).




Lemma create_step_inv w a w' : step w a = Some w' → step_spec w a w'.
Proof.
  destruct a as [c | i res | i]; simpl.
  - unfold launch. destruct (heap w !! c) as [o|] eqn:E; simpl; [|done].
    intros [= <-]. unfold performStatusCheck. simpl.
    replace (<[length (sessions w) := Session c 1 Fetching]>
               (sessions w ++ [Session c 0 Idle]))
      with (sessions w ++ [Session c 1 Fetching]).
    + by constructor.
    + rewrite insert_app_r_alt by lia. by rewrite Nat.sub_diag.
  - destruct (sessions w !! i) as [s|] eqn:Es; simpl; [|done].
    destruct (phase_of s) eqn:Ep; try done.
    unfold callback. destruct (heap w !! conf s) as [o|] eqn:Eo; simpl; [|done].
    destruct (get o "maxTries") as [| | | m | | |] eqn:Em; simpl; try done.
    intros H.
    pose proof (step_complete statusResultSuccess statusResultAbort w i res s o m Es Ep Eo Em) as Hc. simpl in Hc.
    destruct (num_lt _ m && _ && _); injection H as <-; exact Hc.
  - destruct (sessions w !! i) as [s|] eqn:Es; simpl; [|done].
    destruct (phase_of s) eqn:Ep; try done.
    intros [= <-]. by constructor.
Qed.

Lemma create_exec_app w sched1 sched2 :
  exec w (sched1 ++ sched2) = w' ← exec w sched1; exec w' sched2.
Proof.
  revert w. induction sched1 as [|a sched1 IH]; intros w; simpl; [done |].
  destruct (step w a) as [w1|]; simpl; [apply IH | done].
Qed.

Lemma create_reachable_ind (P : world → Prop) h :
  P (init h) →
  (∀ w a w', reachable h w → P w → step w a = Some w' → P w') →
  ∀ w, reachable h w → P w.
Proof.
  intros H0 Hstep w [sched Hs]. revert w Hs.
  induction sched as [|a sched IH] using rev_ind; intros w Hs.
  - simpl in Hs. by injection Hs as <-.
  - rewrite create_exec_app in Hs.
    destruct (exec (init h) sched) as [w1|] eqn:E1; simpl in Hs; [|done].
    destruct (step w1 a) as [w2|] eqn:E2; simpl in Hs; [|done].
    injection Hs as <-. eapply Hstep; [by exists sched | by apply IH | done].
Qed.

(** A step of one session leaves the record and the calls of every other
    session as they were: nothing mutable is shared between sessions. *)
Lemma create_step_other_session w a w' i :
  step w a = Some w' → i ≠ target w a →
  sessions w' !! i = sessions w !! i ∧
  events_of i (trace w') = events_of i (trace w).
Proof.
  intros Hstep Hne. apply create_step_inv in Hstep.
  assert (∀ tr evs, (∀ e, e ∈ evs → sid e ≠ i) →
            events_of i (tr ++ evs) = events_of i tr) as Hev.
  { intros tr evs H. unfold events_of. rewrite List.filter_app.
    replace (List.filter _ evs) with (@nil event); [by rewrite app_nil_r |].
    induction evs as [|e evs IH]; simpl; [done |].
    rewrite bool_decide_eq_false_2 by (apply H; by left).
    apply IH. intros e' He'. apply H. by right. }
  destruct Hstep as [c o Hc | j res s o m Hs Hp Ho Hm tests tic succeeded continue
                    | j s Hs Hp]; simpl in *.
  - split.
    + destruct (decide (i < length (sessions w))).
      * by rewrite lookup_app_l.
      * rewrite !lookup_ge_None_2; [done | lia | rewrite length_app; simpl; lia].
    + apply Hev. intros e ->%list_elem_of_singleton. simpl. congruence.
  - split; [by rewrite list_lookup_insert_ne |].
    apply Hev. intros e He. subst tic.
    destruct (is_function _); destruct continue; try destruct succeeded;
      repeat (apply elem_of_cons in He as [-> | He]; [simpl; congruence |]);
      by apply elem_of_nil in He.
  - split; [by rewrite list_lookup_insert_ne |].
    apply Hev. intros e ->%list_elem_of_singleton. simpl. congruence.
Qed.

(** The counter of a session is the number of its own fetches. *)
Lemma create_testCount_is_fetches h w :
  reachable h w →
  (∀ e, e ∈ trace w → sid e < length (sessions w)) ∧
  ∀ i s, sessions w !! i = Some s → testCount s = count (is_fetch i) (trace w).
Proof.
  revert w. apply create_reachable_ind.
  - split; simpl; [by intros e ?%elem_of_nil | intros i s H; by rewrite lookup_nil in H].
  - intros w a w' _ [Hsid IH] Hstep.
    pose proof (create_step_inv _ _ _ Hstep) as Hspec.
    assert (∀ i s', i ≠ target w a → sessions w' !! i = Some s' →
              testCount s' = count (is_fetch i) (trace w')) as Hother.
    { intros i s' Hne Hs'.
      destruct (create_step_other_session w a w' i Hstep Hne) as [Hsame _].
      rewrite Hsame in Hs'. rewrite (IH i s' Hs').
      destruct Hspec as [c o Hc | j res s o m Hs Hp Ho Hm tests tic succeeded continue
                        | j s Hs Hp]; simpl in *; rewrite count_app.
      - simpl. rewrite bool_decide_eq_false_2 by done. lia.
      - subst tic. destruct (is_function _), continue, succeeded; simpl; lia.
      - simpl. rewrite bool_decide_eq_false_2 by done. lia. }
    destruct Hspec as [c o Hc | j res s o m Hs Hp Ho Hm tests tic succeeded continue
                      | j s Hs Hp]; simpl in *.
    + split.
      * intros e [He | ->%list_elem_of_singleton]%elem_of_app; rewrite length_app; simpl;
          [apply Hsid in He |]; lia.
      * intros i s' Hs'. destruct (decide (i = length (sessions w))) as [-> | Hne].
        -- rewrite lookup_app_r in Hs' by lia. rewrite Nat.sub_diag in Hs'.
           injection Hs' as <-. simpl. rewrite count_app. simpl.
           rewrite bool_decide_eq_true_2 by done.
           rewrite (count_none _ (trace w)); [done |].
           intros e He. destruct e; simpl; try done.
           apply bool_decide_eq_false_2. apply Hsid in He. simpl in He. lia.
        -- by apply Hother.
    + split.
      * intros e He. rewrite length_insert. apply lookup_lt_Some in Hs.
        apply elem_of_app in He as [He | He]; [by apply Hsid |].
        subst tic.
        destruct (is_function _); destruct continue; try destruct succeeded;
          repeat (apply elem_of_cons in He as [-> | He]; [done |]);
          by apply elem_of_nil in He.
      * intros i s' Hs'. destruct (decide (i = j)) as [-> | Hne]; [|by apply Hother].
        rewrite list_lookup_insert_eq in Hs' by (by eapply lookup_lt_Some).
        injection Hs' as <-. simpl. rewrite (IH j s Hs), count_app.
        subst tic. destruct (is_function _), continue, succeeded; simpl; lia.
    + split.
      * intros e He. rewrite length_insert. apply lookup_lt_Some in Hs.
        apply elem_of_app in He as [He | ->%list_elem_of_singleton]; [by apply Hsid | done].
      * intros i s' Hs'. destruct (decide (i = j)) as [-> | Hne]; [|by apply Hother].
        rewrite list_lookup_insert_eq in Hs' by (by eapply lookup_lt_Some).
        injection Hs' as <-. simpl. rewrite (IH j s Hs), count_app. simpl.
        rewrite bool_decide_eq_true_2 by done. lia.
Qed.

(** The attempt number [onTic] receives is the number of fetches the
    session itself has made. *)
Lemma create_tic_number h w i res w' :
  reachable h w → step w (Complete i res) = Some w' →
  ∃ tic x,
    trace w' = trace w ++ [SuccessTest i (VObj res); AbortTest i (VObj res)] ++ tic ++ [x] ∧
    (tic = [] ∨ tic = [OnTic i (VObj res) (count (is_fetch i) (trace w))]) ∧
    is_outcome x.
Proof.
  intros Hr Hstep. apply create_step_inv in Hstep.
  inversion Hstep as [| j res' s o m Hs Hp Ho Hm tests tic succeeded continue |]; subst.
  destruct (create_testCount_is_fetches h w Hr) as [_ Hcount].
  simpl. eexists tic, _. split_and!; [done | |].
  - subst tic. rewrite <- (Hcount i s Hs). destruct (is_function _); eauto.
  - by destruct continue, succeeded.
Qed.
End create_facts.
End CreateTheory.

(** * The claims that span two revisions, and the examples *)

Lemma validate_written_back (o : obj) : written_back o (validate o).
Proof.
  unfold written_back. rewrite !absent_or_invalid_spec.
  rewrite validate_maxTries, validate_pollTime.
  split_and!.
  - by intros ->.
  - by intros ->.
  - by intros ->%not_true_is_false.
  - by intros ->%not_true_is_false.
  - apply validate_other.
Qed.

(** C9. The launcher writes into the caller's object: after the launch the
    object at the caller's location holds the default where [maxTries] or
    [pollTime] was absent or invalid, and every other property, and every
    other object, is as before.  This holds of [src/main.js] and of
    [createStatusPollFunction]. *)
Theorem C9_conf_written_in_place (statusResultSuccess statusResultAbort : value → bool) :
  (∀ w c o w',
     MainJs.heap w !! c = Some o →
     MainJs.step statusResultSuccess statusResultAbort w (Launch c) = Some w' →
     ∃ o', MainJs.heap w' !! c = Some o' ∧ written_back o o' ∧
           ∀ c', c' ≠ c → MainJs.heap w' !! c' = MainJs.heap w !! c') ∧
  (∀ w c o w',
     Create.heap w !! c = Some o →
     Create.step statusResultSuccess statusResultAbort w (Launch c) = Some w' →
     ∃ o', Create.heap w' !! c = Some o' ∧ written_back o o' ∧
           ∀ c', c' ≠ c → Create.heap w' !! c' = Create.heap w !! c').
Proof.
  split; intros w c o w' Hc Hstep.
  - apply MainJsTheory.step_inv in Hstep. inversion Hstep as [c0 o0 Hc0 | |]; subst.
    rewrite Hc in Hc0. injection Hc0 as <-. simpl.
    exists (validate o). rewrite lookup_insert_eq.
    split_and!; [done | apply validate_written_back |].
    intros c' Hne. by rewrite lookup_insert_ne.
  - apply CreateTheory.create_step_inv in Hstep. inversion Hstep as [c0 o0 Hc0 | |]; subst.
    rewrite Hc in Hc0. injection Hc0 as <-. simpl.
    exists (validate o). rewrite lookup_insert_eq.
    split_and!; [done | apply validate_written_back |].
    intros c' Hne. by rewrite lookup_insert_ne.
Qed.

(** C4, amended.  [onTic] receives the result of the fetcher as it is.  In
    [createStatusPollFunction] so do the two predicates; in [src/main.js]
    the two predicates receive the [status] property of the result. *)
Theorem C4_result_passing (statusResultSuccess statusResultAbort : value → bool) :
  (∀ w i res w',
     MainJs.step statusResultSuccess statusResultAbort w (Complete i res) = Some w' →
     ∃ tic x,
       MainJs.trace w'
       = MainJs.trace w ++ tic ++
         [SuccessTest i (get res "status"); AbortTest i (get res "status"); x] ∧
       (tic = [] ∨ ∃ n, tic = [OnTic i (VObj res) n]) ∧ is_outcome x) ∧
  (∀ w i res w',
     Create.step statusResultSuccess statusResultAbort w (Complete i res) = Some w' →
     ∃ tic x,
       Create.trace w'
       = Create.trace w ++ [SuccessTest i (VObj res); AbortTest i (VObj res)] ++ tic ++ [x] ∧
       (tic = [] ∨ ∃ n, tic = [OnTic i (VObj res) n]) ∧ is_outcome x).
Proof.
  split; intros w i res w' Hstep.
  - apply MainJsTheory.step_inv in Hstep.
    inversion Hstep as [| j res' s o m Hs Hp Ho Hm tic tests succeeded continue |]; subst.
    simpl. eexists tic, _. split_and!; [done | |].
    + subst tic. destruct (is_function _); eauto.
    + by destruct continue, succeeded.
  - apply CreateTheory.create_step_inv in Hstep.
    inversion Hstep as [| j res' s o m Hs Hp Ho Hm tests tic succeeded continue |]; subst.
    simpl. eexists tic, _. split_and!; [done | |].
    + subst tic. destruct (is_function _); eauto.
    + by destruct continue, succeeded.
Qed.

(** C4, as stated, fails in [src/main.js]: for the result
    [{status: 'ready', detail: 7}] the success predicate is called on the
    string ['ready'], not on the result. *)
Lemma C4_counterexample :
  ∃ w, MainJs.exec MainJs.successCondition MainJs.abortCondition
         (MainJs.init demo_heap) [Launch 0; Complete 0 ready_detail] = Some w ∧
       ¬ unmodified ready_detail (MainJs.trace w).
Proof.
  eexists. split; [vm_compute; reflexivity |].
  intros H. specialize (H (SuccessTest 0 (VStr "ready"))).
  assert (VStr "ready" = VObj ready_detail) as E; [|discriminate E].
  apply H. vm_compute. do 2 right. left.
Qed.

(** C2, on the two-argument [pollForStatus].  The launcher is built with the
    success test [status === 'done'] and the fetcher answers
    [{status: 'done'}]: the test holds, the session stops at its first
    attempt, and [onFail] is invoked, because the terminal branch compares
    the status with ['ready'] instead of using the test. *)
Theorem C2_two_arg_ignores_success_test :
  doneCondition (get status_done "status") = true ∧
  ∃ w, TwoArg.exec doneCondition (TwoArg.init {[ 0 := config (num 5) ]})
         [Launch 0; Complete 0 status_done] = Some w ∧
       map TwoArg.phase_of (TwoArg.sessions w) = [Done] ∧
       events_of 0 (TwoArg.trace w)
       = [GetStatus 0; SuccessTest 0 (VStr "done"); OnFail 0].
Proof. split; [done |]. eexists. split; [vm_compute; reflexivity |]. by vm_compute. Qed.

(** The same input in [src/main.js]: [onSuccess] is invoked. *)
Example main_js_uses_success_test :
  ∃ w, MainJs.exec doneCondition MainJs.abortCondition
         (MainJs.init {[ 0 := config (num 5) ]})
         [Launch 0; Complete 0 status_done] = Some w ∧
       count (is_success 0) (MainJs.trace w) = 1 ∧
       count (is_fail 0) (MainJs.trace w) = 0.
Proof. eexists. split; [vm_compute; reflexivity |]. by vm_compute. Qed.

(** C3, on [src/main.js].  Two sessions of one launcher, [maxTries] 3 and
    5, the fetcher never ready.  Launched first, the session with [maxTries]
    5 makes five attempts, numbered from 1; launched second, it makes two
    attempts, numbered 4 and 5: the counter is shared. *)
Theorem C3_main_js_shares_the_counter :
  (∃ w, MainJs.exec MainJs.successCondition MainJs.abortCondition
          (MainJs.init two_sessions_heap) alone_sched = Some w ∧
        map MainJs.phase_of (MainJs.sessions w) = [Done] ∧
        tic_numbers 0 (MainJs.trace w) = [1; 2; 3; 4; 5] ∧
        count (is_fetch 0) (MainJs.trace w) = 5 ∧
        count (is_fail 0) (MainJs.trace w) = 1) ∧
  (∃ w, MainJs.exec MainJs.successCondition MainJs.abortCondition
          (MainJs.init two_sessions_heap) two_sessions_sched = Some w ∧
        map MainJs.phase_of (MainJs.sessions w) = [Done; Done] ∧
        tic_numbers 0 (MainJs.trace w) = [1; 2; 3] ∧
        count (is_fail 0) (MainJs.trace w) = 1 ∧
        tic_numbers 1 (MainJs.trace w) = [4; 5] ∧
        count (is_fetch 1) (MainJs.trace w) = 2 ∧
        count (is_fail 1) (MainJs.trace w) = 1).
Proof.
  split; (eexists; split; [vm_compute; reflexivity |]); by vm_compute.
Qed.

(** The same two sessions in [createStatusPollFunction]: the second session
    makes its five attempts, numbered from 1. *)
Example create_sessions_are_independent :
  ∃ w, Create.exec Create.successCondition Create.abortCondition
         (Create.init two_sessions_heap)
         (two_sessions_sched ++ Fire 1 :: attempt 1 notReady ++ attempt 1 notReady
            ++ last_attempt 1 notReady) = Some w ∧
       map Create.phase_of (Create.sessions w) = [Done; Done] ∧
       tic_numbers 0 (Create.trace w) = [1; 2; 3] ∧
       tic_numbers 1 (Create.trace w) = [1; 2; 3; 4; 5] ∧
       count (is_fetch 1) (Create.trace w) = 5 ∧
       count (is_fail 1) (Create.trace w) = 1.
Proof. eexists. split; [vm_compute; reflexivity |]. by vm_compute. Qed.

(** C6, on [src/main.js].  After a session of one attempt, a second session
    of the same launcher, [maxTries] 3: [onTic] is invoked once in each of
    its attempts, with the result, before the outcome, but the attempt
    numbers it receives are 2 and 3, not 1 and 2. *)
Theorem C6_main_js_tic_numbers_are_launcher_wide :
  ∃ w, MainJs.exec MainJs.successCondition MainJs.abortCondition
         (MainJs.init tic_heap) tic_sched = Some w ∧
       events_of 1 (MainJs.trace w)
       = [GetStatus 1; OnTic 1 (VObj notReady) 2;
          SuccessTest 1 (VStr "notReady"); AbortTest 1 (VStr "notReady");
          SetTimeout 1 (num 100);
          GetStatus 1; OnTic 1 (VObj notReady) 3;
          SuccessTest 1 (VStr "notReady"); AbortTest 1 (VStr "notReady");
          OnFail 1].
Proof. eexists. split; [vm_compute; reflexivity |]. by vm_compute. Qed.

(** C10, on [src/main.js].  [maxTries] 2.5 is kept as it is; the first
    session of the launcher makes 3 attempts, the ceiling of 2.5, and a
    second session with the same [maxTries] makes 1. *)
Theorem C10_main_js_fraction_second_session :
  ∃ w, MainJs.exec MainJs.successCondition MainJs.abortCondition
         (MainJs.init fraction_heap) fraction_sched = Some w ∧
       MainJs.heap w = fraction_heap ∧
       Qceiling (5 # 2) = 3%Z ∧
       map MainJs.phase_of (MainJs.sessions w) = [Done; Done] ∧
       count (is_fetch 0) (MainJs.trace w) = 3 ∧
       count (is_fail 0) (MainJs.trace w) = 1 ∧
       count (is_fetch 1) (MainJs.trace w) = 1 ∧
       count (is_fail 1) (MainJs.trace w) = 1.
Proof. eexists. split; [vm_compute; reflexivity |]. by vm_compute. Qed.

(** Giving more fuel to a run that has ended changes nothing. *)
Lemma run_more {FS} ss sa (fetch : FS → obj * FS) i k fuel :
  ∀ fs w fs' w' s',
    MainJs.run ss sa fetch fuel i fs w = Some (fs', w') →
    MainJs.sessions w' !! i = Some s' → MainJs.phase_of s' = Done →
    MainJs.run ss sa fetch (fuel + k) i fs w = Some (fs', w').
Proof.
  induction fuel as [|fuel IH]; intros fs w fs' w' s' Hrun Hs' Hp'.
  - simpl in Hrun. injection Hrun as <- <-.
    destruct k as [|k]; simpl; [done |]. rewrite Hs'. simpl. by rewrite Hp'.
  - cbn [MainJs.run] in Hrun. cbn [Nat.add MainJs.run].
    destruct (MainJs.sessions w !! i) as [s|]; simpl in *; [|done].
    destruct (MainJs.phase_of s); try done.
    + destruct (fetch fs) as [res fs1].
      destruct (MainJs.sessions w !! i ≫= _) as [w1|]; simpl in *; [|done].
      by eapply IH.
    + destruct (MainJs.sessions w !! i ≫= _) as [w1|]; simpl in *; [|done].
      by eapply IH.
Qed.

(** C8. The script of [src/main.js]: the fetcher is fresh, [maxTries] is
    20.  The session ends with [onSuccess] after 10 attempts and 10 calls of
    the fetcher, whatever fuel beyond the 19 steps it takes. *)
Theorem C8_demo_ready_on_tenth (k : nat) :
  ∃ w1 w,
    MainJs.step MainJs.successCondition MainJs.abortCondition
      (MainJs.init demo_heap) (Launch 0) = Some w1 ∧
    MainJs.run MainJs.successCondition MainJs.abortCondition getStatus (19 + k) 0 0 w1
    = Some (10, w) ∧
    map MainJs.phase_of (MainJs.sessions w) = [Done] ∧
    count (is_fetch 0) (MainJs.trace w) = 10 ∧
    tic_numbers 0 (MainJs.trace w) = [1; 2; 3; 4; 5; 6; 7; 8; 9; 10] ∧
    count (is_success 0) (MainJs.trace w) = 1 ∧
    count (is_fail 0) (MainJs.trace w) = 0 ∧
    last (MainJs.trace w) = Some (OnSuccess 0).
Proof.
  eexists _, _. split; [vm_compute; reflexivity |].
  split.
  - eapply (run_more _ _ _ 0 k 19); [vm_compute; reflexivity | by vm_compute | done].
  - by vm_compute.
Qed.

(** The last two inputs in [createStatusPollFunction]: the second session
    counts its own attempts. *)
Example create_tic_numbers_are_per_session :
  ∃ w, Create.exec Create.successCondition Create.abortCondition
         (Create.init tic_heap) (tic_sched ++ Fire 1 :: last_attempt 1 notReady) = Some w ∧
       map Create.phase_of (Create.sessions w) = [Done; Done] ∧
       tic_numbers 1 (Create.trace w) = [1; 2; 3].
Proof. eexists. split; [vm_compute; reflexivity |]. by vm_compute. Qed.

Example create_fraction_second_session :
  ∃ w, Create.exec Create.successCondition Create.abortCondition
         (Create.init fraction_heap)
         (fraction_sched ++ Fire 1 :: attempt 1 notReady ++ last_attempt 1 notReady)
       = Some w ∧
       map Create.phase_of (Create.sessions w) = [Done; Done] ∧
       count (is_fetch 0) (Create.trace w) = 3 ∧
       count (is_fetch 1) (Create.trace w) = 3 ∧
       count (is_fail 1) (Create.trace w) = 1.
Proof. eexists. split; [vm_compute; reflexivity |]. by vm_compute. Qed.

(** ** The general theorems at concrete inputs *)




Lemma C9_conf_written_in_place_witness :
  (∃ w', MainJs.step MainJs.successCondition MainJs.abortCondition
           (MainJs.init {[ 0 := config (VStr "many") ]}) (Launch 0) = Some w' ∧
         ∃ o', MainJs.heap w' !! 0 = Some o' ∧ written_back (config (VStr "many")) o' ∧
               ∀ c', c' ≠ 0 →
                 MainJs.heap w' !! c'
                 = MainJs.heap (MainJs.init {[ 0 := config (VStr "many") ]}) !! c') ∧
  (∃ w', Create.step MainJs.successCondition MainJs.abortCondition
           (Create.init {[ 0 := config (VStr "many") ]}) (Launch 0) = Some w' ∧
         ∃ o', Create.heap w' !! 0 = Some o' ∧ written_back (config (VStr "many")) o' ∧
               ∀ c', c' ≠ 0 →
                 Create.heap w' !! c'
                 = Create.heap (Create.init {[ 0 := config (VStr "many") ]}) !! c').
Proof.
  destruct (C9_conf_written_in_place MainJs.successCondition MainJs.abortCondition)
    as [HM HC].
  split.
  - eexists. split; [vm_compute; reflexivity |].
    eapply HM; vm_compute; reflexivity.
  - eexists. split; [vm_compute; reflexivity |].
    eapply HC; vm_compute; reflexivity.
Defined.

Lemma C4_result_passing_witness :
  (∃ w w',
     MainJs.step MainJs.successCondition MainJs.abortCondition
       (MainJs.init demo_heap) (Launch 0) = Some w ∧
     MainJs.step MainJs.successCondition MainJs.abortCondition
       w (Complete 0 ready_detail) = Some w' ∧
     ∃ tic x,
       MainJs.trace w'
       = MainJs.trace w ++ tic ++
         [SuccessTest 0 (get ready_detail "status");
          AbortTest 0 (get ready_detail "status"); x] ∧
       (tic = [] ∨ ∃ n, tic = [OnTic 0 (VObj ready_detail) n]) ∧ is_outcome x) ∧
  (∃ w w',
     Create.step Create.successCondition Create.abortCondition
       (Create.init demo_heap) (Launch 0) = Some w ∧
     Create.step Create.successCondition Create.abortCondition
       w (Complete 0 ready_detail) = Some w' ∧
     ∃ tic x,
       Create.trace w'
       = Create.trace w ++ [SuccessTest 0 (VObj ready_detail);
                            AbortTest 0 (VObj ready_detail)] ++ tic ++ [x] ∧
       (tic = [] ∨ ∃ n, tic = [OnTic 0 (VObj ready_detail) n]) ∧ is_outcome x).
Proof.
  split.
  - destruct (C4_result_passing MainJs.successCondition MainJs.abortCondition) as [HM _].
    eexists _, _. split; [vm_compute; reflexivity |].
    split; [vm_compute; reflexivity |].
    eapply HM. vm_compute; reflexivity.
  - destruct (C4_result_passing Create.successCondition Create.abortCondition) as [_ HC].
    eexists _, _. split; [vm_compute; reflexivity |].
    split; [vm_compute; reflexivity |].
    eapply HC. vm_compute; reflexivity.
Defined.

(** * Further properties of src/main.js *)

Module MainJsMore.
Import MainJs.

Section main_js_more.
Variables statusResultSuccess statusResultAbort : value → bool.
Abbreviation step := (step statusResultSuccess statusResultAbort).
Abbreviation exec := (exec statusResultSuccess statusResultAbort).
Abbreviation reachable := (reachable statusResultSuccess statusResultAbort).
Abbreviation step_spec := (step_spec statusResultSuccess statusResultAbort).

Lemma events_of_app i tr1 tr2 :
  events_of i (tr1 ++ tr2) = events_of i tr1 ++ events_of i tr2.
Proof. unfold events_of. apply List.filter_app. Qed.

Lemma events_of_other i t evs :
  (∀ e, e ∈ evs → sid e = t) → t ≠ i → events_of i evs = [].
Proof.
  intros H Hne. induction evs as [|e evs IH]; [done |].
  unfold events_of. simpl. rewrite bool_decide_eq_false_2.
  - apply IH. intros e' He'. apply H. by right.
  - rewrite (H e) by left. done.
Qed.

(** A session that is done is not the target of any step. *)
Lemma done_not_target w a w' i s :
  step w a = Some w' → sessions w !! i = Some s → phase_of s = Done →
  target w a ≠ i.
Proof.
  intros Hstep Hs Hp Heq. apply MainJsTheory.step_inv in Hstep.
  destruct Hstep as [c o Hc | j res s0 o m Hs0 Hp0 Ho Hm tic tests succeeded continue
                    | j s0 Hs0 Hp0]; simpl in Heq; subst.
  - apply lookup_lt_Some in Hs. lia.
  - congruence.
  - congruence.
Qed.

(** Once a session is done no call is made on its behalf any more: no
    fetch, no timer, no tick, no terminal callback. *)
Theorem done_session_is_silent h w sched w' i s :
  reachable h w → sessions w !! i = Some s → phase_of s = Done →
  exec w sched = Some w' →
  events_of i (trace w') = events_of i (trace w).
Proof.
  intros Hr Hs Hp. pose proof (MainJsTheory.reachable_wf _ _ h w Hr) as Hwf.
  clear Hr. revert w Hwf Hs.
  induction sched as [|a sched IH]; intros w Hwf Hs He; simpl in He.
  - by injection He as <-.
  - destruct (step w a) as [w1|] eqn:E1; simpl in He; [|done].
    destruct (MainJsTheory.step_frame _ _ w a w1 Hwf E1)
      as ((evs & Htr & Hevs) & Hother & _).
    pose proof (done_not_target w a w1 i s E1 Hs Hp) as Hne.
    rewrite (IH w1); [| by eapply MainJsTheory.wf_step | by rewrite Hother | done].
    rewrite Htr, events_of_app, (events_of_other i _ evs Hevs Hne).
    by rewrite app_nil_r.
Qed.

Lemma count_events_of i p tr : about i p → count p (events_of i tr) = count p tr.
Proof.
  intros Hp. induction tr as [|e tr IH]; [done |].
  unfold events_of in *. simpl. destruct (bool_decide (sid e = i)) eqn:E; simpl.
  - by rewrite IH.
  - rewrite IH. destruct (p e) eqn:Ep; [|done].
    apply Hp in Ep. apply bool_decide_eq_false in E. done.
Qed.

(** The world after the completion handler has run. *)
Lemma complete_inv w i res w1 :
  step w (Complete i res) = Some w1 →
  ∃ s o m,
    sessions w !! i = Some s ∧ phase_of s = Fetching ∧
    heap w !! conf s = Some o ∧ get o "maxTries" = VNum m ∧
    let tic := if is_function (get o "onTic")
               then [OnTic i (VObj res) (testCount w)] else [] in
    let succeeded := statusResultSuccess (get res "status") in
    let continue := num_lt (num_of_nat (testCount w)) m
                    && negb succeeded && negb (statusResultAbort (get res "status")) in
    w1 = World (heap w) (testCount w)
           (<[i := Session (conf s) (if continue then Waiting else Done)]> (sessions w))
           (trace w ++ tic ++
              [SuccessTest i (get res "status"); AbortTest i (get res "status");
               if continue then SetTimeout i (get o "pollTime")
               else if succeeded then OnSuccess i else OnFail i]).
Proof.
  intros Hstep%MainJsTheory.step_inv.
  inversion Hstep as [| j res' s o m Hs Hp Ho Hm tic tests succeeded continue |]; subst.
  by exists s, o, m.
Qed.

(** The counts of a session after the attempt that ends it. *)
Lemma ending_attempt h w i res w1 sched w2 (ok : bool) :
  reachable h w → step w (Complete i res) = Some w1 →
  statusResultSuccess (get res "status") = ok →
  (ok = false → statusResultAbort (get res "status") = true) →
  exec w1 sched = Some w2 →
  count (is_success i) (trace w2) = (if ok then 1 else 0) ∧
  count (is_fail i) (trace w2) = (if ok then 0 else 1) ∧
  count (is_fetch i) (trace w2) = count (is_fetch i) (trace w).
Proof.
  intros Hr Hstep Hok Hab Hexec.
  assert (reachable h w1) as Hr1 by (by eapply MainJsTheory.reachable_step).
  destruct (complete_inv _ _ _ _ Hstep) as (s & o & m & Hs & Hp & Ho & Hm & Hw1).
  simpl in Hw1. rewrite Hok in Hw1.
  assert (num_lt (num_of_nat (testCount w)) m && negb ok
          && negb (statusResultAbort (get res "status")) = false) as Hc.
  { destruct ok.
    - by rewrite andb_false_r.
    - rewrite (Hab eq_refl). by rewrite andb_false_r. }
  rewrite Hc in Hw1.
  assert (maxTries_of w s m) as Hmt by (by exists o).
  destruct (MainJsTheory.reachable_sinv _ _ h w i s m Hr Hs Hmt) as [I1 _ _ _].
  rewrite Hp in I1.
  assert (sessions w1 !! i = Some (Session (conf s) Done)) as Hs1.
  { rewrite Hw1. simpl. apply list_lookup_insert_eq. by eapply lookup_lt_Some. }
  pose proof (done_session_is_silent h w1 sched w2 i _ Hr1 Hs1 eq_refl Hexec) as Hsilent.
  assert (∀ p, about i p → count p (trace w2) = count p (trace w1)) as Hsame.
  { intros p Hp'. by rewrite <- (count_events_of i p (trace w2)), Hsilent, count_events_of. }
  rewrite (Hsame _ (MainJsTheory.about_is_success i)),
    (Hsame _ (MainJsTheory.about_is_fail i)), (Hsame _ (MainJsTheory.about_is_fetch i)).
  rewrite Hw1. cbn [trace]. rewrite !count_app.
  destruct (is_function _), ok; simpl;
    rewrite ?bool_decide_eq_true_2 by done; clear -I1; lia.
Qed.

(** A result on which the success predicate holds ends the session with
    [onSuccess], once, and never [onFail], also when the abort predicate
    holds on it and when it is the last allowed attempt; the session makes
    no further fetch. *)
Theorem success_has_priority h w i res w1 sched w2 :
  reachable h w → step w (Complete i res) = Some w1 →
  statusResultSuccess (get res "status") = true →
  exec w1 sched = Some w2 →
  count (is_success i) (trace w2) = 1 ∧
  count (is_fail i) (trace w2) = 0 ∧
  count (is_fetch i) (trace w2) = count (is_fetch i) (trace w).
Proof.
  intros Hr Hstep Hok Hexec.
  by apply (ending_attempt h w i res w1 sched w2 true).
Qed.

(** A result on which the abort predicate holds and the success predicate
    does not ends the session with [onFail], once, whatever tries remain;
    the session makes no further fetch. *)
Theorem abort_ends_session h w i res w1 sched w2 :
  reachable h w → step w (Complete i res) = Some w1 →
  statusResultSuccess (get res "status") = false →
  statusResultAbort (get res "status") = true →
  exec w1 sched = Some w2 →
  count (is_success i) (trace w2) = 0 ∧
  count (is_fail i) (trace w2) = 1 ∧
  count (is_fetch i) (trace w2) = count (is_fetch i) (trace w).
Proof.
  intros Hr Hstep Hok Hab Hexec.
  by apply (ending_attempt h w i res w1 sched w2 false).
Qed.

Lemma about_is_timeout i : about i (is_timeout i).
Proof. intros [] H; simpl in *; try done; by apply bool_decide_eq_true in H. Qed.

Lemma session_calls_step w a w' :
  wf w →
  (∀ i s o, sessions w !! i = Some s → heap w !! conf s = Some o → session_calls w i s o) →
  step w a = Some w' →
  ∀ i s o, sessions w' !! i = Some s → heap w' !! conf s = Some o → session_calls w' i s o.
Proof.
  intros Hwf IH Hstep i s' o' Hs' Ho'.
  destruct (MainJsTheory.step_frame _ _ w a w' Hwf Hstep)
    as ((evs & Htr & Hevs) & Hother & Hheap & _ & _).
  destruct (decide (i = target w a)) as [Heq | Hne].
  - pose proof (MainJsTheory.step_inv _ _ _ _ _ Hstep) as Hspec.
    destruct Hspec as [c o Hc | j res s o m Hs Hp Ho Hm tic tests succeeded continue
                      | j s Hs Hp]; simpl in Heq; subst i.
    + (* a new session *)
      cbn [sessions heap trace] in *.
      rewrite lookup_app_r in Hs' by lia. rewrite Nat.sub_diag in Hs'.
      injection Hs' as <-.
      assert (∀ p, about (length (sessions w)) p → count p (trace w) = 0) as H0.
      { intros p Hp. by eapply MainJsTheory.count_fresh. }
      split; cbn [phase_of trace]; rewrite ?count_app;
        rewrite ?(H0 _ (MainJsTheory.about_is_fetch _)), ?(H0 _ (about_is_timeout _)),
          ?(H0 _ (MainJsTheory.about_is_tic _)).
      * simpl. by rewrite bool_decide_eq_true_2.
      * simpl. rewrite bool_decide_eq_true_2 by done. by destruct (is_function _).
      * intros d [Hd | Hd%list_elem_of_singleton]%elem_of_app; [|done].
        apply (wf_sid w Hwf) in Hd. simpl in Hd. lia.
    + (* the completion handler of session j *)
      cbn [sessions heap trace] in *.
      rewrite list_lookup_insert_eq in Hs' by (by eapply lookup_lt_Some).
      injection Hs' as <-. cbn [conf phase_of] in *.
      rewrite Ho in Ho'. injection Ho' as <-.
      destruct (IH j s o Hs Ho) as [I1 I2 I3]. rewrite Hp in I1, I2.
      split; cbn [phase_of trace].
      * rewrite !(count_app _ (trace w)). subst tic tests.
        destruct (is_function _), continue, succeeded; simpl;
          rewrite ?bool_decide_eq_true_2 by done; clear -I1; lia.
      * rewrite !(count_app _ (trace w)). subst tic tests.
        destruct (is_function _), continue, succeeded; simpl;
          rewrite ?bool_decide_eq_true_2 by done; clear -I1 I2; lia.
      * intros d [Hd | Hd]%elem_of_app; [by apply I3 |].
        subst tic tests.
        destruct (is_function _), continue, succeeded;
          repeat (apply elem_of_cons in Hd as [Hd | Hd]; [by inversion Hd |]);
          by apply elem_of_nil in Hd.
    + (* the timer of session j fires *)
      cbn [sessions heap trace] in *.
      rewrite list_lookup_insert_eq in Hs' by (by eapply lookup_lt_Some).
      injection Hs' as <-. cbn [conf phase_of] in *.
      destruct (IH j s o' Hs Ho') as [I1 I2 I3]. rewrite Hp in I1, I2.
      split; cbn [phase_of trace].
      * rewrite !count_app. simpl. rewrite bool_decide_eq_true_2 by done.
        clear -I1; lia.
      * rewrite !count_app. simpl. rewrite bool_decide_eq_true_2 by done.
        destruct (is_function _); clear -I1 I2; lia.
      * intros d [Hd | Hd%list_elem_of_singleton]%elem_of_app; [by apply I3 | done].
  - (* a step of another session *)
    rewrite Hother in Hs' by done.
    rewrite (Hheap i s' Hs') in Ho'.
    destruct (IH i s' o' Hs' Ho') as [I1 I2 I3].
    assert (∀ p, about i p → count p (trace w') = count p (trace w)) as Hsame.
    { intros p Hp. rewrite Htr. eapply MainJsTheory.count_other; [done | done | congruence]. }
    split; rewrite ?(Hsame _ (MainJsTheory.about_is_fetch _)),
        ?(Hsame _ (about_is_timeout _)), ?(Hsame _ (MainJsTheory.about_is_tic _)); try done.
    intros d Hd. rewrite Htr in Hd. apply elem_of_app in Hd as [Hd | Hd]; [by apply I3 |].
    apply Hevs in Hd. simpl in Hd. congruence.
Qed.

Lemma reachable_session_calls h w i s o :
  reachable h w → sessions w !! i = Some s → heap w !! conf s = Some o →
  session_calls w i s o.
Proof.
  intros Hr. revert i s o. revert w Hr.
  apply (MainJsTheory.reachable_ind statusResultSuccess statusResultAbort
           (λ w, ∀ i s o, sessions w !! i = Some s → heap w !! conf s = Some o →
                          session_calls w i s o)).
  - intros i s o Hs. simpl in Hs. by rewrite lookup_nil in Hs.
  - intros w a w' Hr IH Hstep. eapply session_calls_step; eauto.
    by eapply MainJsTheory.reachable_wf.
Qed.

(** Within a session the attempts are strictly sequential: every fetch
    after the first follows a timer of the session, and at any moment either
    one fetch is outstanding, or one timer is pending, or the session is
    done. *)
Theorem attempts_are_sequential h w i s :
  reachable h w → sessions w !! i = Some s →
  count (is_fetch i) (trace w)
  = count (is_timeout i) (trace w) + match phase_of s with Waiting => 0 | _ => 1 end.
Proof.
  intros Hr Hs.
  destruct (wf_conf w (MainJsTheory.reachable_wf _ _ h w Hr) i s Hs) as (o & Ho & _).
  by destruct (reachable_session_calls h w i s o Hr Hs Ho).
Qed.

(** When [conf.onTic] is a function it has been called once for every
    attempt whose result was delivered, the terminal attempt included; when
    it is not a function it is never called. *)
Theorem tic_once_per_attempt h w i s o :
  reachable h w → sessions w !! i = Some s → heap w !! conf s = Some o →
  (is_function (get o "onTic") = true →
     count (is_tic i) (trace w)
     = count (is_fetch i) (trace w) - match phase_of s with Fetching => 1 | _ => 0 end) ∧
  (is_function (get o "onTic") = false → count (is_tic i) (trace w) = 0).
Proof.
  intros Hr Hs Ho.
  destruct (reachable_session_calls h w i s o Hr Hs Ho) as [_ I2 _].
  split; intros Hf; by rewrite Hf in I2.
Qed.

(** Every timer a session sets has the [pollTime] of its validated
    configuration as delay: a number that is not below 1. *)
Theorem timers_use_validated_pollTime h w i d :
  reachable h w → SetTimeout i d ∈ trace w →
  ∃ s o, sessions w !! i = Some s ∧ heap w !! conf s = Some o ∧
         d = get o "pollTime" ∧ invalid d = false.
Proof.
  intros Hr Hd. pose proof (MainJsTheory.reachable_wf _ _ h w Hr) as Hwf.
  pose proof (wf_sid w Hwf _ Hd) as Hlt. simpl in Hlt.
  destruct (lookup_lt_is_Some_2 _ _ Hlt) as [s Hs].
  destruct (wf_conf w Hwf i s Hs) as (o & Ho & [_ Hn]).
  destruct (reachable_session_calls h w i s o Hr Hs Ho) as [_ _ I3].
  exists s, o. rewrite (I3 d Hd). done.
Qed.

(** The counter of the launcher is the number of calls of the fetcher all
    its sessions have made together. *)
Theorem counter_counts_all_fetches h w :
  reachable h w → testCount w = count is_any_fetch (trace w).
Proof.
  revert w. apply MainJsTheory.reachable_ind; [done |].
  intros w a w' _ IH Hstep. apply MainJsTheory.step_inv in Hstep.
  destruct Hstep as [c o Hc | j res s o m Hs Hp Ho Hm tic tests succeeded continue
                    | j s Hs Hp]; cbn [testCount trace]; rewrite count_app, <- IH.
  - simpl. lia.
  - subst tic tests. destruct (is_function _), continue, succeeded; simpl; lia.
  - simpl. lia.
Qed.

(** From its launch on, the configuration object of a session holds
    numbers for [maxTries] and [pollTime], and neither is below 1. *)
Theorem launched_config_is_valid h w i s :
  reachable h w → sessions w !! i = Some s →
  ∃ o n p, heap w !! conf s = Some o ∧
           get o "maxTries" = VNum n ∧ num_lt n (Fin (inject_Z 1)) = false ∧
           get o "pollTime" = VNum p ∧ num_lt p (Fin (inject_Z 1)) = false.
Proof.
  intros Hr Hs.
  destruct (wf_conf w (MainJsTheory.reachable_wf _ _ h w Hr) i s Hs) as (o & Ho & [H1 H2]).
  apply invalid_false_num in H1 as (n & Hn & Hn1).
  apply invalid_false_num in H2 as (p & Hp & Hp1).
  by exists o, n, p.
Qed.

(** Launching again with a configuration object a session already uses
    writes nothing: the object was validated by the first launch. *)
Theorem relaunch_writes_nothing h w i s w' :
  reachable h w → sessions w !! i = Some s →
  step w (Launch (conf s)) = Some w' →
  heap w' = heap w.
Proof.
  intros Hr Hs Hstep.
  destruct (wf_conf w (MainJsTheory.reachable_wf _ _ h w Hr) i s Hs) as (o & Ho & Hn).
  apply MainJsTheory.step_inv in Hstep.
  inversion Hstep as [c0 o0 Hc0 | |]; subst. cbn [heap].
  rewrite Ho in Hc0. injection Hc0 as <-.
  rewrite validate_id by done. by apply insert_id.
Qed.

Local Arguments MainJs.step : simpl never.

Lemma launch_inv w c w1 :
  step w (Launch c) = Some w1 →
  ∃ o, heap w !! c = Some o ∧
       w1 = World (<[c := validate o]> (heap w)) (S (testCount w))
              (sessions w ++ [Session c Fetching])
              (trace w ++ [GetStatus (length (sessions w))]).
Proof.
  intros Hstep%MainJsTheory.step_inv. inversion Hstep as [c0 o Hc | |]; subst. eauto.
Qed.

Lemma fire_inv w i w1 :
  step w (Fire i) = Some w1 →
  ∃ s, sessions w !! i = Some s ∧ phase_of s = Waiting ∧
       w1 = World (heap w) (S (testCount w))
              (<[i := Session (conf s) Fetching]> (sessions w))
              (trace w ++ [GetStatus i]).
Proof.
  intros Hstep%MainJsTheory.step_inv. inversion Hstep as [| | j s Hs Hp]; subst. eauto.
Qed.


(** The completion handler on a result that neither succeeds nor aborts. *)
Lemma complete_no_match w i s m res :
  wf w → sessions w !! i = Some s → phase_of s = Fetching → maxTries_of w s m →
  statusResultSuccess (get res "status") = false →
  statusResultAbort (get res "status") = false →
  ∃ w1, step w (Complete i res) = Some w1 ∧
        sessions w1 !! i
        = Some (Session (conf s)
                  (if num_lt (num_of_nat (testCount w)) m then Waiting else Done)) ∧
        testCount w1 = testCount w ∧ heap w1 = heap w ∧
        count (is_fetch i) (trace w1) = count (is_fetch i) (trace w) ∧
        count (is_success i) (trace w1) = count (is_success i) (trace w).
Proof.
  intros Hwf Hs Hp (o & Ho & Hm) Hss Hsa.
  destruct (MainJsTheory.complete_enabled statusResultSuccess statusResultAbort
              w i s res Hwf Hs Hp) as [w1 H1].
  exists w1. split; [done |].
  destruct (complete_inv _ _ _ _ H1) as (s0 & o0 & m0 & Hs0 & _ & Ho0 & Hm0 & Hw1).
  rewrite Hs in Hs0. injection Hs0 as <-. rewrite Ho in Ho0. injection Ho0 as <-.
  rewrite Hm in Hm0. injection Hm0 as <-.
  cbn zeta in Hw1. rewrite Hss, Hsa, !andb_true_r in Hw1.
  rewrite Hw1. cbn [sessions testCount heap trace]. split_and!; try done.
  - apply list_lookup_insert_eq. by eapply lookup_lt_Some.
  - rewrite count_app. destruct (is_function _), (num_lt _ m); simpl; lia.
  - rewrite count_app. destruct (is_function _), (num_lt _ m); simpl; lia.
Qed.

Lemma fire_step w i s :
  sessions w !! i = Some s → phase_of s = Waiting →
  ∃ w1, step w (Fire i) = Some w1 ∧
        sessions w1 !! i = Some (Session (conf s) Fetching) ∧
        testCount w1 = S (testCount w) ∧ heap w1 = heap w ∧
        count (is_fetch i) (trace w1) = count (is_fetch i) (trace w) + 1 ∧
        count (is_success i) (trace w1) = count (is_success i) (trace w).
Proof.
  intros Hs Hp.
  destruct (MainJsTheory.fire_enabled statusResultSuccess statusResultAbort w i s Hs Hp)
    as [w1 H1].
  exists w1. split; [done |].
  destruct (fire_inv _ _ _ H1) as (s0 & Hs0 & _ & Hw1).
  rewrite Hs in Hs0. injection Hs0 as <-.
  rewrite Hw1. cbn [sessions testCount heap trace]. split_and!; try done.
  - apply list_lookup_insert_eq. by eapply lookup_lt_Some.
  - rewrite count_app. simpl. by rewrite bool_decide_eq_true_2.
  - rewrite count_app. simpl. lia.
Qed.

Lemma polls_forever {FS} (fetch : FS → obj * FS) h i n :
  (∀ fs, statusResultSuccess (get (fetch fs).1 "status") = false) →
  (∀ fs, statusResultAbort (get (fetch fs).1 "status") = false) →
  ∀ w s fs,
    reachable h w → sessions w !! i = Some s → phase_of s = Fetching →
    maxTries_of w s PInf →
    ∃ fs' w' s',
      run statusResultSuccess statusResultAbort fetch (2 * n) i fs w = Some (fs', w') ∧
      reachable h w' ∧ sessions w' !! i = Some s' ∧ phase_of s' = Fetching ∧
      count (is_fetch i) (trace w') = count (is_fetch i) (trace w) + n.
Proof.
  intros Hss Hsa. induction n as [|n IH]; intros w s fs Hr Hs Hp Hm.
  - exists fs, w, s. simpl. split_and!; try done; lia.
  - replace (2 * S n) with (S (S (2 * n))) by lia.
    pose proof (MainJsTheory.reachable_wf _ _ h w Hr) as Hwf.
    cbn [run]. rewrite Hs. cbn [mbind option_bind]. rewrite Hp.
    specialize (Hss fs). specialize (Hsa fs).
    destruct (fetch fs) as [res fs1]. cbn [fst] in Hss, Hsa.
    destruct (complete_no_match w i s PInf res Hwf Hs Hp Hm Hss Hsa)
      as (w1 & H1 & Hs1 & Htc1 & Hh1 & Hf1 & _).
    rewrite H1. cbn [mbind option_bind].
    change (num_lt (num_of_nat (testCount w)) PInf) with true in Hs1.
    assert (reachable h w1) as Hr1 by (by eapply MainJsTheory.reachable_step).
    rewrite Hs1. cbn [mbind option_bind phase_of].
    destruct (fire_step w1 i _ Hs1 eq_refl) as (w2 & H2 & Hs2 & Htc2 & Hh2 & Hf2 & _).
    rewrite H2. cbn [mbind option_bind].
    assert (reachable h w2) as Hr2 by (by eapply MainJsTheory.reachable_step).
    assert (maxTries_of w2 (Session (conf s) Fetching) PInf) as Hm2.
    { destruct Hm as (o & Ho & Hq). exists o. cbn [conf]. by rewrite Hh2, Hh1. }
    destruct (IH w2 _ fs1 Hr2 Hs2 eq_refl Hm2) as (fs' & w' & s' & Hrun & Hr' & Hs' & Hp' & Hf').
    exists fs', w', s'. split_and!; try done; lia.
Qed.

(** [maxTries: Infinity] passes the validation and never exhausts: while no
    result succeeds or aborts the session goes on polling, one more fetch
    every two steps, and is never done. *)
Theorem infinite_maxTries_polls_forever {FS} (fetch : FS → obj * FS) h w i s fs n :
  (∀ fs, statusResultSuccess (get (fetch fs).1 "status") = false) →
  (∀ fs, statusResultAbort (get (fetch fs).1 "status") = false) →
  reachable h w → sessions w !! i = Some s → phase_of s = Fetching →
  maxTries_of w s PInf →
  ∃ fs' w' s',
    run statusResultSuccess statusResultAbort fetch (2 * n) i fs w = Some (fs', w') ∧
    sessions w' !! i = Some s' ∧ phase_of s' = Fetching ∧
    count (is_fetch i) (trace w') = count (is_fetch i) (trace w) + n.
Proof.
  intros Hss Hsa Hr Hs Hp Hm.
  destruct (polls_forever fetch h i n Hss Hsa w s fs Hr Hs Hp Hm)
    as (fs' & w' & s' & Hrun & _ & Hs' & Hp' & Hf').
  by exists fs', w', s'.
Qed.

Lemma run_done {FS} (fetch : FS → obj * FS) fuel i fs w s :
  sessions w !! i = Some s → phase_of s = Done →
  run statusResultSuccess statusResultAbort fetch fuel i fs w = Some (fs, w).
Proof. intros Hs Hp. destruct fuel; cbn [run]; [done |]. rewrite Hs. cbn. by rewrite Hp. Qed.



End main_js_more.

(** ** The script of src/main.js, for any [maxTries] *)

Lemma get_status (v : value) : get {[ "status" := v ]} "status" = v.
Proof. unfold get. by rewrite lookup_singleton_eq. Qed.

Lemma cap_nat (N : nat) : cap (Fin (inject_Z (Z.of_nat N))) = N.
Proof. unfold cap. rewrite Qceiling_Z. lia. Qed.

Local Arguments MainJs.step : simpl never.

Lemma demo_run h (N : nat) fuel :
  ∀ w s fs,
    reachable successCondition abortCondition h w →
    sessions w !! 0 = Some s →
    maxTries_of w s (Fin (inject_Z (Z.of_nat N))) →
    (phase_of s = Fetching ∧ S fs = testCount w ∧ testCount w ≤ 10 ∧ testCount w ≤ N) ∨
    (phase_of s = Waiting ∧ fs = testCount w ∧ testCount w < 10 ∧ testCount w < N) →
    count (is_fetch 0) (trace w) = testCount w →
    count (is_success 0) (trace w) = 0 →
    mu (phase_of s) N (testCount w) ≤ fuel →
    ∃ w2,
      run successCondition abortCondition getStatus fuel 0 fs w = Some (Nat.min N 10, w2) ∧
      count (is_fetch 0) (trace w2) = Nat.min N 10 ∧
      count (is_success 0) (trace w2) = (if 10 <=? N then 1 else 0) ∧
      count (is_fail 0) (trace w2) = (if 10 <=? N then 0 else 1).
Proof.
  induction fuel as [|fuel IH]; intros w s fs Hr Hs Hmt Hph Hf Hsucc Hmu.
  - destruct Hph as [(Hp & _) | (Hp & _)]; rewrite Hp in Hmu; simpl in Hmu; lia.
  - pose proof (MainJsTheory.reachable_wf _ _ h w Hr) as Hwf.
    cbn [run]. rewrite Hs. cbn [mbind option_bind].
    destruct Hph as [(Hp & Hfs & H10 & HN) | (Hp & Hfs & H10 & HN)]; rewrite Hp in *.
    + unfold getStatus. cbn zeta. rewrite Hfs.
      destruct (testCount w <? readyOnTest) eqn:Eready.
      * (* not ready yet *)
        apply Nat.ltb_lt in Eready. unfold readyOnTest in Eready.
        destruct (complete_no_match successCondition abortCondition w 0 s _
                    {[ "status" := VStr "notReady" ]} Hwf Hs Hp Hmt)
          as (w1 & H1 & Hs1 & Htc1 & Hh1 & Hf1 & Hsucc1);
          [by rewrite get_status | by rewrite get_status |].
        rewrite H1. cbn [mbind option_bind].
        assert (reachable successCondition abortCondition h w1) as Hr1
            by (by eapply MainJsTheory.reachable_step).
        assert (∀ p, maxTries_of w1 (Session (conf s) p) (Fin (inject_Z (Z.of_nat N)))) as Hm1.
        { intros p. destruct Hmt as (o & Ho & Hq). exists o. cbn [conf]. by rewrite Hh1. }
        destruct (num_lt (num_of_nat (testCount w)) _) eqn:Elt.
        -- apply count_lt_cap in Elt; [|done]. rewrite cap_nat in Elt.
           apply (IH w1 _ (testCount w) Hr1 Hs1 (Hm1 _)).
           ++ right. cbn [phase_of]. rewrite Htc1. by split_and!.
           ++ by rewrite Hf1, Htc1.
           ++ by rewrite Hsucc1.
           ++ cbn [phase_of]. rewrite Htc1. simpl in *. lia.
        -- assert (¬ testCount w < N) as Hge.
           { intros Hlt.
             assert (num_lt (num_of_nat (testCount w)) (Fin (inject_Z (Z.of_nat N))) = true)
               as Ht by (apply count_lt_cap; [done | by rewrite cap_nat]).
             by rewrite Ht in Elt. }
           assert (testCount w = N) as HeqN by lia.
           rewrite (run_done successCondition abortCondition getStatus fuel 0 _ w1 _ Hs1 eq_refl).
           exists w1.
           destruct (MainJsTheory.reachable_sinv _ _ h w1 0 _ _ Hr1 Hs1 (Hm1 _)) as [I1 _ _ _].
           cbn [phase_of] in I1.
           assert ((10 <=? N) = false) as -> by (apply Nat.leb_gt; lia).
           replace (Nat.min N 10) with N by lia.
           split_and!; [by rewrite HeqN | lia | lia | lia].
      * (* ready *)
        apply Nat.ltb_ge in Eready. unfold readyOnTest in Eready.
        assert (testCount w = 10) as Heq10 by lia.
        destruct (MainJsTheory.complete_enabled successCondition abortCondition w 0 s
                    {[ "status" := VStr "ready" ]} Hwf Hs Hp) as [w1 H1].
        rewrite H1. cbn [mbind option_bind].
        destruct (ending_attempt successCondition abortCondition h w 0 _ w1 [] w1 true
                    Hr H1) as (E1 & E2 & E3); [by rewrite get_status | done | done |].
        destruct (complete_inv _ _ _ _ _ _ H1) as (s0 & o & m & Hs0 & _ & Ho & Hm & Hw1).
        assert (sessions w1 !! 0 = Some (Session (conf s0) Done)) as Hs1.
        { rewrite Hw1. cbn [sessions]. rewrite get_status.
          change (successCondition (VStr "ready")) with true. rewrite andb_false_r.
          apply list_lookup_insert_eq. by eapply lookup_lt_Some. }
        rewrite (run_done successCondition abortCondition getStatus fuel 0 _ w1 _ Hs1 eq_refl).
        exists w1.
        assert ((10 <=? N) = true) as -> by (apply Nat.leb_le; lia).
        replace (Nat.min N 10) with 10 by lia.
        split_and!; [by rewrite Heq10 | lia | done | done].
    + destruct (fire_step successCondition abortCondition w 0 s Hs Hp)
        as (w1 & H1 & Hs1 & Htc1 & Hh1 & Hf1 & Hsucc1).
      rewrite H1. cbn [mbind option_bind].
      assert (reachable successCondition abortCondition h w1) as Hr1
          by (by eapply MainJsTheory.reachable_step).
      assert (maxTries_of w1 (Session (conf s) Fetching) (Fin (inject_Z (Z.of_nat N)))) as Hm1.
      { destruct Hmt as (o & Ho & Hq). exists o. cbn [conf]. by rewrite Hh1. }
      apply (IH w1 _ fs Hr1 Hs1 Hm1).
      * left. cbn [phase_of]. rewrite Htc1. split_and!; [done | lia | lia | lia].
      * rewrite Hf1, Htc1. lia.
      * by rewrite Hsucc1.
      * cbn [phase_of]. rewrite Htc1. simpl in *. lia.
Qed.

(** The script of [src/main.js] with any whole number of tries: on a
    launcher and a demo fetcher not used before, a session with [maxTries]
    [N] calls the fetcher [min N 10] times; it ends with [onSuccess] when
    [N] is at least 10 and with [onFail] otherwise. *)
Theorem demo_succeeds_iff_ten_tries h c o (N : nat) :
  h !! c = Some o →
  get (validate o) "maxTries" = VNum (Fin (inject_Z (Z.of_nat N))) →
  ∃ w1,
    step successCondition abortCondition (init h) (Launch c) = Some w1 ∧
    ∃ n, ∀ fuel, n ≤ fuel →
      ∃ w2,
        run successCondition abortCondition getStatus fuel 0 0 w1
        = Some (Nat.min N 10, w2) ∧
        count (is_fetch 0) (trace w2) = Nat.min N 10 ∧
        count (is_success 0) (trace w2) = (if 10 <=? N then 1 else 0) ∧
        count (is_fail 0) (trace w2) = (if 10 <=? N then 0 else 1).
Proof.
  intros Hc Hq.
  pose proof (MainJsTheory.launch_spec successCondition abortCondition (init h) c o Hc) as H1.
  set (w1 := World _ _ _ _) in H1. clearbody w1.
  exists w1. split; [done |].
  destruct (launch_inv _ _ _ _ _ H1) as (o0 & Hc0 & Hw1).
  cbn [heap init] in Hc0. rewrite Hc in Hc0. injection Hc0 as <-.
  cbn [init heap testCount sessions trace app length] in Hw1.
  assert (reachable successCondition abortCondition h w1) as Hr1 by (by exists [Launch c]; cbn; rewrite H1).
  assert (sessions w1 !! 0 = Some (Session c Fetching)) as Hs1 by (by rewrite Hw1).
  assert (maxTries_of w1 (Session c Fetching) (Fin (inject_Z (Z.of_nat N)))) as Hm1.
  { exists (validate o). split; [|done]. rewrite Hw1. cbn [heap conf]. apply lookup_insert_eq. }
  assert (1 ≤ N) as HN.
  { destruct (wf_conf w1 (MainJsTheory.reachable_wf _ _ h w1 Hr1) 0 _ Hs1) as (o1 & Ho1 & Hn).
    destruct Hm1 as (o2 & Ho2 & Hq2). rewrite Ho1 in Ho2. injection Ho2 as <-.
    pose proof (MainJsTheory.normalised_maxTries _ _ Hn Hq2) as Hle.
    rewrite Qceiling_Z in Hle. lia. }
  exists (mu Fetching N 1). intros fuel Hfuel.
  apply (demo_run h N fuel w1 (Session c Fetching) 0 Hr1 Hs1 Hm1).
  - left. rewrite Hw1. cbn [phase_of testCount]. split_and!; [done | done | lia | lia].
  - rewrite Hw1. cbn. done.
  - rewrite Hw1. cbn. done.
  - rewrite Hw1. cbn [phase_of testCount]. done.
Qed.

End MainJsMore.

(** * Further properties of createStatusPollFunction *)

Module CreateMore.
Import Create.

Section create_more.
Variables statusResultSuccess statusResultAbort : value → bool.
Abbreviation step := (step statusResultSuccess statusResultAbort).
Abbreviation exec := (exec statusResultSuccess statusResultAbort).
Abbreviation reachable := (reachable statusResultSuccess statusResultAbort).
Abbreviation sinv := (create_sinv statusResultSuccess statusResultAbort).

Lemma c_launch_inv w c w1 :
  step w (Launch c) = Some w1 →
  ∃ o, heap w !! c = Some o ∧
       w1 = World (<[c := validate o]> (heap w))
              (sessions w ++ [Session c 1 Fetching])
              (trace w ++ [GetStatus (length (sessions w))]).
Proof.
  intros Hstep%CreateTheory.create_step_inv.
  inversion Hstep as [c0 o Hc | |]; subst. eauto.
Qed.

Lemma c_complete_inv w i res w1 :
  step w (Complete i res) = Some w1 →
  ∃ s o m,
    sessions w !! i = Some s ∧ phase_of s = Fetching ∧
    heap w !! conf s = Some o ∧ get o "maxTries" = VNum m ∧
    let tic := if is_function (get o "onTic")
               then [OnTic i (VObj res) (testCount s)] else [] in
    let succeeded := statusResultSuccess (VObj res) in
    let continue := num_lt (num_of_nat (testCount s)) m
                    && negb succeeded && negb (statusResultAbort (VObj res)) in
    w1 = World (heap w)
           (<[i := Session (conf s) (testCount s) (if continue then Waiting else Done)]>
              (sessions w))
           (trace w ++ [SuccessTest i (VObj res); AbortTest i (VObj res)] ++ tic ++
              [if continue then SetTimeout i (get o "pollTime")
               else if succeeded then OnSuccess i else OnFail i]).
Proof.
  intros Hstep%CreateTheory.create_step_inv.
  inversion Hstep as [| j res' s o m Hs Hp Ho Hm tests tic succeeded continue |]; subst.
  by exists s, o, m.
Qed.

Lemma c_fire_inv w i w1 :
  step w (Fire i) = Some w1 →
  ∃ s, sessions w !! i = Some s ∧ phase_of s = Waiting ∧
       w1 = World (heap w)
              (<[i := Session (conf s) (S (testCount s)) Fetching]> (sessions w))
              (trace w ++ [GetStatus i]).
Proof.
  intros Hstep%CreateTheory.create_step_inv.
  inversion Hstep as [| | j s Hs Hp]; subst. eauto.
Qed.

(** The shape of any step, seen from the session it is about. *)
Lemma c_step_cases w a w1 :
  step w a = Some w1 →
  (∃ c, a = Launch c) ∨ (∃ i res, a = Complete i res) ∨ (∃ i, a = Fire i).
Proof. destruct a; eauto. Qed.

Lemma c_reachable_step h w a w' : reachable h w → step w a = Some w' → reachable h w'.
Proof.
  intros [sched Hs] Ha. exists (sched ++ [a]).
  rewrite CreateTheory.create_exec_app, Hs. simpl. by rewrite Ha.
Qed.

Lemma c_wf_init h : create_wf (init h).
Proof. split; simpl; intros *; try rewrite lookup_nil; try done. by intros ?%elem_of_nil. Qed.

Lemma c_launch_heap_frame w c o j s :
  create_wf w → heap w !! c = Some o → sessions w !! j = Some s →
  <[c := validate o]> (heap w) !! conf s = heap w !! conf s.
Proof.
  intros Hwf Hc Hj. destruct (decide (c = conf s)) as [->|Hne].
  - destruct (cwf_conf w Hwf j s Hj) as (o' & Ho' & Hn).
    rewrite lookup_insert_eq. rewrite Hc in Ho'. injection Ho' as ->.
    rewrite validate_id by done. done.
  - by rewrite lookup_insert_ne.
Qed.

Lemma c_step_frame w a w' :
  create_wf w → step w a = Some w' →
  (∃ evs, trace w' = trace w ++ evs ∧ ∀ e, e ∈ evs → sid e = target w a) ∧
  (∀ j, j ≠ target w a → sessions w' !! j = sessions w !! j) ∧
  (∀ j s, sessions w !! j = Some s → heap w' !! conf s = heap w !! conf s) ∧
  length (sessions w) ≤ length (sessions w').
Proof.
  intros Hwf Hstep.
  destruct a as [c | i res | i].
  - destruct (c_launch_inv _ _ _ Hstep) as (o & Hc & ->). cbn [trace sessions heap target].
    split_and!.
    + eexists. split; [done |]. by intros e ->%list_elem_of_singleton.
    + intros j Hne. destruct (decide (j < length (sessions w))).
      * by rewrite lookup_app_l.
      * rewrite !lookup_ge_None_2; [done | lia | rewrite length_app; simpl; lia].
    + intros j s Hj. by eapply c_launch_heap_frame.
    + rewrite length_app. lia.
  - destruct (c_complete_inv _ _ _ _ Hstep) as (s & o & m & Hs & Hp & Ho & Hm & ->).
    cbn [trace sessions heap target]. split_and!.
    + eexists. split; [done |]. intros e He.
      destruct (is_function _); destruct (_ && _ && _);
        try destruct (statusResultSuccess _); simpl in He;
        repeat (apply elem_of_cons in He as [-> | He]; [done |]);
        by apply elem_of_nil in He.
    + intros j Hne. by rewrite list_lookup_insert_ne.
    + done.
    + by rewrite length_insert.
  - destruct (c_fire_inv _ _ _ Hstep) as (s & Hs & Hp & ->).
    cbn [trace sessions heap target]. split_and!.
    + eexists. split; [done |]. by intros e ->%list_elem_of_singleton.
    + intros j Hne. by rewrite list_lookup_insert_ne.
    + done.
    + by rewrite length_insert.
Qed.

Lemma c_wf_step w a w' : create_wf w → step w a = Some w' → create_wf w'.
Proof.
  intros Hwf Hstep.
  destruct (c_step_frame w a w' Hwf Hstep) as ((evs & Htr & Hevs) & Hother & Hheap & Hlen).
  assert (target w a < length (sessions w')) as Htarget.
  { destruct a as [c | i res | i].
    - destruct (c_launch_inv _ _ _ Hstep) as (o & Hc & ->). cbn. rewrite length_app. simpl. lia.
    - destruct (c_complete_inv _ _ _ _ Hstep) as (s & o & m & Hs & _ & _ & _ & ->).
      cbn. rewrite length_insert. by eapply lookup_lt_Some.
    - destruct (c_fire_inv _ _ _ Hstep) as (s & Hs & _ & ->).
      cbn. rewrite length_insert. by eapply lookup_lt_Some. }
  split.
  - intros j s' Hj. destruct (decide (j = target w a)) as [-> | Hne].
    + destruct a as [c | i res | i].
      * destruct (c_launch_inv _ _ _ Hstep) as (o & Hc & ->). cbn in Hj.
        rewrite lookup_app_r in Hj by lia. rewrite Nat.sub_diag in Hj.
        injection Hj as <-. cbn. rewrite lookup_insert_eq. eauto using validate_normalised.
      * destruct (c_complete_inv _ _ _ _ Hstep) as (s & o & m & Hs & _ & _ & _ & ->).
        cbn in Hj. rewrite list_lookup_insert_eq in Hj by (by eapply lookup_lt_Some).
        injection Hj as <-. cbn. by eapply cwf_conf.
      * destruct (c_fire_inv _ _ _ Hstep) as (s & Hs & _ & ->).
        cbn in Hj. rewrite list_lookup_insert_eq in Hj by (by eapply lookup_lt_Some).
        injection Hj as <-. cbn. by eapply cwf_conf.
    + rewrite Hother in Hj by done. rewrite (Hheap j s' Hj). by eapply cwf_conf.
  - intros j s' Hj. destruct (decide (j = target w a)) as [-> | Hne].
    + destruct a as [c | i res | i].
      * destruct (c_launch_inv _ _ _ Hstep) as (o & Hc & ->). cbn in Hj.
        rewrite lookup_app_r in Hj by lia. rewrite Nat.sub_diag in Hj.
        by injection Hj as <-.
      * destruct (c_complete_inv _ _ _ _ Hstep) as (s & o & m & Hs & _ & _ & _ & ->).
        cbn in Hj. rewrite list_lookup_insert_eq in Hj by (by eapply lookup_lt_Some).
        injection Hj as <-. cbn. by destruct (_ && _ && _).
      * destruct (c_fire_inv _ _ _ Hstep) as (s & Hs & _ & ->).
        cbn in Hj. rewrite list_lookup_insert_eq in Hj by (by eapply lookup_lt_Some).
        by injection Hj as <-.
    + rewrite Hother in Hj by done. by eapply cwf_phase.
  - intros e He. rewrite Htr in He. apply elem_of_app in He as [He | He].
    + pose proof (cwf_sid w Hwf e He). lia.
    + by rewrite (Hevs e He).
Qed.

Lemma c_reachable_wf h w : reachable h w → create_wf w.
Proof.
  revert w. apply CreateTheory.create_reachable_ind; [apply c_wf_init |].
  intros w a w' _ Hwf Hstep. by eapply c_wf_step.
Qed.

Lemma tic_numbers_app i tr1 tr2 :
  tic_numbers i (tr1 ++ tr2) = tic_numbers i tr1 ++ tic_numbers i tr2.
Proof. apply omap_app. Qed.

Lemma tic_numbers_other i t evs :
  (∀ e, e ∈ evs → sid e = t) → t ≠ i → tic_numbers i evs = [].
Proof.
  intros H Hne. induction evs as [|e evs IH]; [done |].
  unfold tic_numbers in *. cbn [omap list_omap].
  rewrite IH by (intros e' He'; apply H; by right).
  assert (sid e = t) as He by (apply H; by left).
  destruct e; try done. simpl in He. rewrite bool_decide_eq_false_2; [done | congruence].
Qed.

Lemma c_count_other i p t tr evs :
  about i p → (∀ e, e ∈ evs → sid e = t) → t ≠ i →
  count p (tr ++ evs) = count p tr.
Proof.
  intros Hp Hevs Hne. rewrite count_app, (count_none p evs); [lia |].
  intros e He. destruct (p e) eqn:E; [|done].
  apply Hp in E. apply Hevs in He. congruence.
Qed.

Lemma c_count_fresh i p w :
  about i p → create_wf w → length (sessions w) ≤ i → count p (trace w) = 0.
Proof.
  intros Hp Hwf Hi. apply count_none. intros e He.
  destruct (p e) eqn:E; [|done]. apply Hp in E.
  pose proof (cwf_sid w Hwf e He). lia.
Qed.

Lemma c_tics_fresh i w :
  create_wf w → length (sessions w) ≤ i → tic_numbers i (trace w) = [].
Proof.
  intros Hwf Hi. induction (trace w) as [|e tr IH] eqn:E in Hwf |- *.
  - done.
  - assert (∀ e', e' ∈ e :: tr → sid e' < length (sessions w)) as Hsid.
    { intros e' He'. apply (cwf_sid w Hwf). by rewrite E. }
    clear E IH. induction (e :: tr) as [|e0 tr0 IH0]; [done |].
    unfold tic_numbers in *. cbn [omap list_omap].
    rewrite IH0 by (intros e' He'; apply Hsid; by right).
    pose proof (Hsid e0 ltac:(by left)) as H0.
    destruct e0; try done. simpl in H0. rewrite bool_decide_eq_false_2; [done | lia].
Qed.

Lemma c_sinv_step w a w' :
  create_wf w →
  (∀ i s o m, sessions w !! i = Some s → heap w !! conf s = Some o →
              get o "maxTries" = VNum m → sinv w i s o m) →
  step w a = Some w' →
  ∀ i s o m, sessions w' !! i = Some s → heap w' !! conf s = Some o →
             get o "maxTries" = VNum m → sinv w' i s o m.
Proof.
  intros Hwf IH Hstep i s' o' m' Hs' Ho' Hm'.
  destruct (c_step_frame w a w' Hwf Hstep) as ((evs & Htr & Hevs) & Hother & Hheap & _).
  destruct (decide (i = target w a)) as [Heq | Hne].
  - destruct a as [c | j res | j]; cbn [target] in Heq; subst i.
    + (* a new session *)
      destruct (c_launch_inv _ _ _ Hstep) as (o & Hc & ->).
      cbn [sessions heap trace] in *.
      rewrite lookup_app_r in Hs' by lia. rewrite Nat.sub_diag in Hs'.
      injection Hs' as <-.
      assert (∀ p, about (length (sessions w)) p → count p (trace w) = 0) as H0.
      { intros p Hp. by eapply c_count_fresh. }
      split; cbn [phase_of testCount trace delivered]; rewrite ?count_app, ?tic_numbers_app;
        rewrite ?(H0 _ (MainJsTheory.about_is_fetch _)),
          ?(H0 _ (MainJsTheory.about_is_success _)),
          ?(H0 _ (MainJsTheory.about_is_fail _)), ?(c_tics_fresh _ w Hwf) by done.
      * done.
      * simpl. by rewrite bool_decide_eq_true_2.
      * done.
      * by left.
      * simpl. by destruct (is_function _).
      * by left.
      * done.
    + (* the completion handler of session j *)
      destruct (c_complete_inv _ _ _ _ Hstep) as (s & o & m & Hs & Hp & Ho & Hm & Hw').
      cbn zeta in Hw'. rewrite Hw' in *. clear Hw'.
      cbn [sessions heap trace] in *.
      rewrite list_lookup_insert_eq in Hs' by (by eapply lookup_lt_Some).
      injection Hs' as <-. cbn [conf phase_of testCount] in *.
      rewrite Ho in Ho'. injection Ho' as <-. rewrite Hm in Hm'. injection Hm' as <-.
      destruct (IH j s o m Hs Ho Hm) as [I1 I2 I3 I4 I5 I6 I7].
      unfold delivered in I5. rewrite Hp in I1, I4, I5.
      set (succeeded := statusResultSuccess (VObj res)) in *.
      set (aborted := statusResultAbort (VObj res)) in *.
      set (lt := num_lt (num_of_nat (testCount s)) m) in *.
      split; cbn [phase_of testCount trace delivered].
      * rewrite !(count_app _ (trace w)).
        destruct (is_function _), lt, succeeded, aborted; simpl;
          rewrite ?bool_decide_eq_true_2 by done; clear -I1; lia.
      * rewrite !(count_app _ (trace w)).
        destruct (is_function _), lt, succeeded, aborted; simpl; clear -I2; lia.
      * done.
      * destruct lt eqn:Elt; simpl; [| done].
        by destruct succeeded, aborted.
      * rewrite tic_numbers_app, I5.
        assert (seq 1 (testCount s) = seq 1 (testCount s - 1) ++ [testCount s]) as Hseq.
        { replace (testCount s) with (S (testCount s - 1)) at 1 by lia.
          rewrite seq_S. do 2 f_equal. lia. }
        destruct (lt && negb succeeded && negb aborted), (is_function _), succeeded;
          cbn -[seq Nat.sub]; rewrite ?bool_decide_eq_true_2 by done; cbn -[seq Nat.sub];
          unfold delivered; cbn [phase_of testCount];
          rewrite ?Nat.sub_0_r, ?app_nil_r; try done; by rewrite Hseq.
      * destruct I6 as [I6 | (a0 & Ha0 & Hss0)].
        -- destruct succeeded eqn:Es.
           ++ right. exists (VObj res). split; [|done].
              apply elem_of_app. right. by left.
           ++ left. rewrite count_app, I6.
              destruct (is_function _), (lt && _ && _); simpl; done.
        -- right. exists a0. split; [|done]. apply elem_of_app. by left.
      * intros Hdone.
        destruct lt eqn:Elt; [| by right; right].
        destruct succeeded eqn:Es.
        -- left. exists (VObj res). split; [|done]. apply elem_of_app. right. by left.
        -- destruct aborted eqn:Ea; [| done].
           right. left. exists (VObj res). split; [|done].
           apply elem_of_app. right. right. by left.
    + (* the timer of session j fires *)
      destruct (c_fire_inv _ _ _ Hstep) as (s & Hs & Hp & ->).
      cbn [sessions heap trace] in *.
      rewrite list_lookup_insert_eq in Hs' by (by eapply lookup_lt_Some).
      injection Hs' as <-. cbn [conf phase_of testCount] in *.
      destruct (IH j s o' m' Hs Ho' Hm') as [I1 I2 I3 I4 I5 I6 I7].
      unfold delivered in I5. rewrite Hp in I1, I4, I5.
      split; cbn [phase_of testCount trace delivered].
      * rewrite !count_app. simpl. clear -I1; lia.
      * rewrite !count_app. simpl. rewrite bool_decide_eq_true_2 by done. clear -I2; lia.
      * lia.
      * right. by replace (S (testCount s) - 1) with (testCount s) by lia.
      * rewrite tic_numbers_app, I5. cbn. rewrite app_nil_r.
        replace (S (testCount s) - 1) with (testCount s - 0) by lia. done.
      * destruct I6 as [I6 | (a0 & Ha0 & Hss0)].
        -- left. rewrite count_app, I6. done.
        -- right. exists a0. split; [|done]. apply elem_of_app. by left.
      * done.
  - (* a step of another session *)
    rewrite Hother in Hs' by done.
    rewrite (Hheap i s' Hs') in Ho'.
    destruct (IH i s' o' m' Hs' Ho' Hm') as [I1 I2 I3 I4 I5 I6 I7].
    assert (∀ p, about i p → count p (trace w') = count p (trace w)) as Hsame.
    { intros p Hp. rewrite Htr. eapply c_count_other; [done | done | congruence]. }
    assert (∀ e, e ∈ trace w → e ∈ trace w') as Hin.
    { intros e He. rewrite Htr. apply elem_of_app. by left. }
    split; rewrite ?(Hsame _ (MainJsTheory.about_is_fetch _)),
        ?(Hsame _ (MainJsTheory.about_is_success _)),
        ?(Hsame _ (MainJsTheory.about_is_fail _)); try done.
    + rewrite Htr, tic_numbers_app, (tic_numbers_other i _ evs Hevs) by congruence.
      by rewrite app_nil_r.
    + destruct I6 as [I6 | (a0 & Ha0 & Hss0)]; [by left | right; eauto].
    + intros Hd. destruct (I7 Hd) as [(a0 & Ha0 & H0) | [(a0 & Ha0 & H0) | H0]]; eauto 6.
Qed.

Lemma c_reachable_sinv h w i s o m :
  reachable h w → sessions w !! i = Some s → heap w !! conf s = Some o →
  get o "maxTries" = VNum m → sinv w i s o m.
Proof.
  intros Hr. revert i s o m. revert w Hr.
  apply (CreateTheory.create_reachable_ind statusResultSuccess statusResultAbort
           (λ w, ∀ i s o m, sessions w !! i = Some s → heap w !! conf s = Some o →
                            get o "maxTries" = VNum m → sinv w i s o m)).
  - intros i s o m Hs. simpl in Hs. by rewrite lookup_nil in Hs.
  - intros w a w' Hr IH Hstep. eapply c_sinv_step; eauto.
    by eapply c_reachable_wf.
Qed.

Lemma c_normalised_maxTries o q :
  normalised o → get o "maxTries" = VNum (Fin q) → (1 ≤ Qceiling q)%Z.
Proof.
  intros [H _] Hq. rewrite Hq in H. unfold invalid in H. simpl in H.
  destruct (num_lt (Fin q) (Fin (inject_Z 1))) eqn:E; [done |].
  unfold num_lt in E. apply negb_false_iff, Qle_bool_iff in E.
  change 1%Z with (Qceiling (inject_Z 1)). by apply Qceiling_resp_le.
Qed.

(** The session makes at most [ceil maxTries] calls of the fetcher, in
    every interleaving with other sessions and for every result. *)
Theorem create_attempt_bound h w i s q :
  reachable h w → sessions w !! i = Some s → create_maxTries w s (Fin q) →
  (Z.of_nat (count (is_fetch i) (trace w)) ≤ Qceiling q)%Z.
Proof.
  intros Hr Hs (o & Ho & Hq).
  destruct (c_reachable_sinv h w i s o (Fin q) Hr Hs Ho Hq) as [_ I2 I3 I4 _ _ _].
  rewrite <- I2.
  assert (1 ≤ Qceiling q)%Z as H1.
  { destruct (cwf_conf w (c_reachable_wf h w Hr) i s Hs) as (o' & Ho' & Hn).
    rewrite Ho in Ho'. injection Ho' as <-. by eapply c_normalised_maxTries. }
  unfold num_of_nat in I4.
  destruct (phase_of s); try destruct I4 as [I4 | I4];
    try apply num_lt_Fin in I4; lia.
Qed.

(** When [conf.onTic] is a function, the attempt numbers a session hands
    to it are 1, 2, 3, ... in this order, one for each attempt whose result
    was delivered, whatever the other sessions of the launcher do. *)
Theorem create_tic_numbers_count_from_one h w i s o :
  reachable h w → sessions w !! i = Some s → heap w !! conf s = Some o →
  is_function (get o "onTic") = true →
  tic_numbers i (trace w)
  = seq 1 (count (is_fetch i) (trace w)
           - match phase_of s with Fetching => 1 | _ => 0 end).
Proof.
  intros Hr Hs Ho Hf.
  destruct (cwf_conf w (c_reachable_wf h w Hr) i s Hs) as (o' & Ho' & [Hn _]).
  rewrite Ho in Ho'. injection Ho' as <-.
  apply invalid_false_num in Hn as (m & Hm & _).
  destruct (c_reachable_sinv h w i s o m Hr Hs Ho Hm) as [_ I2 _ _ I5 _ _].
  rewrite Hf in I5. by rewrite I5, <- I2.
Qed.


Local Arguments Create.step : simpl never.

Lemma c_complete_enabled w i s res :
  create_wf w → sessions w !! i = Some s → phase_of s = Fetching →
  is_Some (step w (Complete i res)).
Proof.
  intros Hwf Hs Hp. unfold Create.step. rewrite Hs. cbn [mbind option_bind]. rewrite Hp.
  destruct (cwf_conf w Hwf i s Hs) as (o & Ho & [Hn _]).
  apply invalid_false_num in Hn as (n & Hn & _).
  unfold callback. rewrite Ho. cbn [mbind option_bind]. rewrite Hn. cbn.
  by destruct (_ && _ && _).
Qed.

Lemma c_fire_enabled w i s :
  sessions w !! i = Some s → phase_of s = Waiting → is_Some (step w (Fire i)).
Proof. intros Hs Hp. unfold Create.step. rewrite Hs. cbn. by rewrite Hp. Qed.

Lemma c_run_terminates {FS} (fetch : FS → obj * FS) h i m fuel :
  m ≠ PInf →
  ∀ w s fs,
    reachable h w → sessions w !! i = Some s → create_maxTries w s m →
    mu (phase_of s) (cap m) (testCount s) ≤ fuel →
    ∃ fs' w' s', run statusResultSuccess statusResultAbort fetch fuel i fs w = Some (fs', w')
                 ∧ reachable h w' ∧ sessions w' !! i = Some s'
                 ∧ phase_of s' = Done ∧ create_maxTries w' s' m.
Proof.
  intros Hm. induction fuel as [|fuel IH]; intros w s fs Hr Hs Hmt Hmu.
  - pose proof (cwf_phase w (c_reachable_wf h w Hr) i s Hs) as Hidle.
    exists fs, w, s. simpl. split_and!; try done.
    destruct (phase_of s); simpl in Hmu; try done; lia.
  - pose proof (c_reachable_wf h w Hr) as Hwf.
    pose proof (cwf_phase w Hwf i s Hs) as Hidle.
    cbn [run]. rewrite Hs. cbn [mbind option_bind].
    destruct (phase_of s) eqn:Hp; [done | | |].
    + destruct (fetch fs) as [res fs'].
      destruct (c_complete_enabled w i s res Hwf Hs Hp) as [w' Hstep].
      rewrite Hstep. cbn [mbind option_bind].
      destruct (c_complete_inv _ _ _ _ Hstep) as (s0 & o & m0 & Hs0 & _ & Ho & Hm0 & Hw').
      rewrite Hs in Hs0. injection Hs0 as <-.
      assert (m0 = m) as -> by (destruct Hmt as (o' & Ho' & Hq'); congruence).
      cbn zeta in Hw'.
      set (continue := _ && _ && _) in Hw'.
      apply (IH w' (Session (conf s) (testCount s) (if continue then Waiting else Done)) fs').
      * by eapply c_reachable_step.
      * rewrite Hw'. cbn [sessions]. apply list_lookup_insert_eq. by eapply lookup_lt_Some.
      * exists o. rewrite Hw'. by cbn [heap conf].
      * cbn [phase_of testCount]. destruct continue eqn:Ec; simpl; [|lia].
        subst continue. apply andb_prop in Ec as [Ec _]. apply andb_prop in Ec as [Ec _].
        apply count_lt_cap in Ec; [|done]. simpl in Hmu. lia.
    + destruct (c_fire_enabled w i s Hs Hp) as [w' Hstep].
      rewrite Hstep. cbn [mbind option_bind].
      destruct (c_fire_inv _ _ _ Hstep) as (s0 & Hs0 & _ & Hw').
      rewrite Hs in Hs0. injection Hs0 as <-.
      apply (IH w' (Session (conf s) (S (testCount s)) Fetching) fs).
      * by eapply c_reachable_step.
      * rewrite Hw'. cbn [sessions]. apply list_lookup_insert_eq. by eapply lookup_lt_Some.
      * destruct Hmt as (o & Ho & Hq). exists o. rewrite Hw'. by cbn [heap conf].
      * cbn [phase_of testCount]. simpl. simpl in Hmu. lia.
    + exists fs, w, s. by split_and!.
Qed.

Lemma c_done_not_target w a w' i s :
  step w a = Some w' → sessions w !! i = Some s → phase_of s = Done →
  target w a ≠ i.
Proof.
  intros Hstep Hs Hp Heq. destruct a as [c | j res | j]; cbn [target] in Heq; subst.
  - apply lookup_lt_Some in Hs. lia.
  - destruct (c_complete_inv _ _ _ _ Hstep) as (s0 & o & m & Hs0 & Hp0 & _). congruence.
  - destruct (c_fire_inv _ _ _ Hstep) as (s0 & Hs0 & Hp0 & _). congruence.
Qed.

Lemma c_done_forever w sched w' i s o :
  create_wf w → sessions w !! i = Some s → phase_of s = Done →
  heap w !! conf s = Some o → exec w sched = Some w' →
  sessions w' !! i = Some s ∧ heap w' !! conf s = Some o ∧
  events_of i (trace w') = events_of i (trace w).
Proof.
  intros Hwf Hs Hp Ho. revert w Hwf Hs Ho.
  induction sched as [|a sched IH]; intros w Hwf Hs Ho He; simpl in He.
  - by injection He as <-.
  - destruct (step w a) as [w1|] eqn:E1; simpl in He; [|done].
    destruct (c_step_frame w a w1 Hwf E1) as ((evs & Htr & Hevs) & Hother & Hheap & _).
    pose proof (c_done_not_target w a w1 i s E1 Hs Hp) as Hne.
    destruct (IH w1) as (H1 & H2 & H3);
      [by eapply c_wf_step | by rewrite Hother | by rewrite (Hheap i s Hs) | done |].
    split_and!; [done | done |].
    rewrite H3, Htr, MainJsMore.events_of_app, (MainJsMore.events_of_other i _ evs Hevs Hne).
    by rewrite app_nil_r.
Qed.

(** In every execution a session whose [maxTries] is not [Infinity] has
    invoked at most one of [onSuccess] and [onFail], at most once; when its
    fetches are answered and its timers fire it stops after finitely many
    steps, having invoked exactly one of the two, once, whatever happens
    afterwards. *)
Theorem create_exactly_once {FS} (fetch : FS → obj * FS) h w i s m :
  reachable h w → sessions w !! i = Some s → create_maxTries w s m → m ≠ PInf →
  count (is_success i) (trace w) + count (is_fail i) (trace w) ≤ 1 ∧
  ∀ fs, ∃ n, ∀ fuel, n ≤ fuel →
    ∃ fs' w',
      run statusResultSuccess statusResultAbort fetch fuel i fs w = Some (fs', w') ∧
      ∀ sched' w'', exec w' sched' = Some w'' →
        count (is_success i) (trace w'') + count (is_fail i) (trace w'') = 1.
Proof.
  intros Hr Hs Hmt Hm. split.
  - destruct Hmt as (o & Ho & Hq).
    destruct (c_reachable_sinv h w i s o m Hr Hs Ho Hq) as [I1 _ _ _ _ _ _].
    destruct (phase_of s); lia.
  - intros fs. exists (mu (phase_of s) (cap m) (testCount s)). intros fuel Hfuel.
    destruct (c_run_terminates fetch h i m fuel Hm w s fs Hr Hs Hmt Hfuel)
      as (fs' & w' & s' & Hrun & Hr' & Hs' & Hp' & (o & Ho & Hq)).
    exists fs', w'. split; [done |].
    intros sched' w'' Hexec'.
    destruct (c_done_forever w' sched' w'' i s' o (c_reachable_wf h w' Hr') Hs' Hp' Ho Hexec')
      as (_ & _ & Hev).
    destruct (c_reachable_sinv h w' i s' o m Hr' Hs' Ho Hq) as [I1 _ _ _ _ _ _].
    rewrite Hp' in I1.
    rewrite <- (MainJsMore.count_events_of i _ (trace w'') (MainJsTheory.about_is_success i)),
      <- (MainJsMore.count_events_of i _ (trace w'') (MainJsTheory.about_is_fail i)), Hev,
      !MainJsMore.count_events_of
      by (apply MainJsTheory.about_is_success || apply MainJsTheory.about_is_fail).
    done.
Qed.

(** A step of a session depends on the record of the session, its
    configuration object and the result only: in two worlds that agree on
    these it leaves the same record and makes the same calls. *)
Theorem create_step_is_local w1 w2 i s o a w1' w2' :
  sessions w1 !! i = Some s → sessions w2 !! i = Some s →
  heap w1 !! conf s = Some o → heap w2 !! conf s = Some o →
  acts_on i a = true →
  step w1 a = Some w1' → step w2 a = Some w2' →
  sessions w1' !! i = sessions w2' !! i ∧
  ∃ evs, trace w1' = trace w1 ++ evs ∧ trace w2' = trace w2 ++ evs.
Proof.
  intros Hs1 Hs2 Ho1 Ho2 Ha H1 H2.
  destruct a as [c | j res | j]; cbn [acts_on] in Ha; [done | |];
    apply bool_decide_eq_true in Ha; subst j.
  - destruct (c_complete_inv _ _ _ _ H1) as (s1 & o1 & m1 & Hs1' & _ & Ho1' & Hm1 & ->).
    destruct (c_complete_inv _ _ _ _ H2) as (s2 & o2 & m2 & Hs2' & _ & Ho2' & Hm2 & ->).
    rewrite Hs1 in Hs1'. injection Hs1' as <-. rewrite Hs2 in Hs2'. injection Hs2' as <-.
    rewrite Ho1 in Ho1'. injection Ho1' as <-. rewrite Ho2 in Ho2'. injection Ho2' as <-.
    rewrite Hm1 in Hm2. injection Hm2 as <-.
    cbn [sessions trace]. split.
    + rewrite !list_lookup_insert_eq by (by eapply lookup_lt_Some). done.
    + eauto.
  - destruct (c_fire_inv _ _ _ H1) as (s1 & Hs1' & _ & ->).
    destruct (c_fire_inv _ _ _ H2) as (s2 & Hs2' & _ & ->).
    rewrite Hs1 in Hs1'. injection Hs1' as <-. rewrite Hs2 in Hs2'. injection Hs2' as <-.
    cbn [sessions trace]. split.
    + rewrite !list_lookup_insert_eq by (by eapply lookup_lt_Some). done.
    + eauto.
Qed.

(** The steps of the other sessions, and new launches, leave a session as
    it is: its record with its counter, its configuration object, and the
    calls made on its behalf. *)
Theorem create_other_steps_leave_session h w sched w' i s o :
  reachable h w → sessions w !! i = Some s → heap w !! conf s = Some o →
  Forall (λ a, acts_on i a = false) sched →
  exec w sched = Some w' →
  sessions w' !! i = Some s ∧ heap w' !! conf s = Some o ∧
  events_of i (trace w') = events_of i (trace w).
Proof.
  intros Hr Hs Ho Hall. pose proof (c_reachable_wf h w Hr) as Hwf. clear Hr.
  revert w Hwf Hs Ho.
  induction Hall as [|a sched Ha Hall IH]; intros w Hwf Hs Ho He; simpl in He.
  - by injection He as <-.
  - destruct (step w a) as [w1|] eqn:E1; simpl in He; [|done].
    destruct (c_step_frame w a w1 Hwf E1) as ((evs & Htr & Hevs) & Hother & Hheap & _).
    assert (target w a ≠ i) as Hne.
    { destruct a as [c | j res | j]; cbn [target acts_on] in *.
      - apply lookup_lt_Some in Hs. lia.
      - apply bool_decide_eq_false in Ha. congruence.
      - apply bool_decide_eq_false in Ha. congruence. }
    destruct (IH w1) as (H1 & H2 & H3);
      [by eapply c_wf_step | by rewrite Hother | by rewrite (Hheap i s Hs) | done |].
    split_and!; [done | done |].
    rewrite H3, Htr, MainJsMore.events_of_app, (MainJsMore.events_of_other i _ evs Hevs Hne).
    by rewrite app_nil_r.
Qed.

End create_more.
End CreateMore.

(** * Further properties of the two-argument pollForStatus *)

Module TwoArgMore.
Import TwoArg.

Section two_arg_more.
Variable statusResultTest : value → bool.
Abbreviation step := (step statusResultTest).

(** The world after the completion handler has run. *)
Lemma t_complete_inv w i res w1 :
  step w (Complete i res) = Some w1 →
  ∃ s o m,
    sessions w !! i = Some s ∧ phase_of s = Fetching ∧
    heap w !! conf s = Some o ∧ get o "maxTries" = VNum m ∧
    let canStillTry := num_lt (num_of_nat (S (testCount w))) m in
    let continue := canStillTry && negb (statusResultTest (get res "status")) in
    w1 = World (heap w) (S (testCount w))
           (<[i := Session (conf s) (if continue then Waiting else Done)]> (sessions w))
           (trace w ++ (if canStillTry then [SuccessTest i (get res "status")] else []) ++
              [if continue then SetTimeout i (get o "pollTime")
               else if strict_eq_str (get res "status") "ready"
                    then OnSuccess i else OnFail i]).
Proof.
  cbn [TwoArg.step]. destruct (sessions w !! i) as [s|] eqn:Es; cbn; [|done].
  destruct (phase_of s) eqn:Ep; try done.
  unfold callback. destruct (heap w !! conf s) as [o|] eqn:Eo; cbn; [|done].
  destruct (get o "maxTries") as [| | | m | | |] eqn:Em; cbn; try done.
  intros H. exists s, o, m. split_and!; try done.
  destruct (num_lt _ m && _); by injection H as <-.
Qed.

(** Which terminal callback a session invokes depends on the status of
    the final result alone: [onSuccess] when it is ['ready'], [onFail]
    otherwise, whatever [statusResultTest] says of it. *)
Theorem two_arg_outcome_by_status w i res w1 s1 :
  step w (Complete i res) = Some w1 →
  sessions w1 !! i = Some s1 → phase_of s1 = Done →
  ∃ pre,
    trace w1 = pre ++ [if strict_eq_str (get res "status") "ready"
                       then OnSuccess i else OnFail i].
Proof.
  intros Hstep Hs1 Hp1.
  destruct (t_complete_inv _ _ _ _ Hstep) as (s & o & m & Hs & Hp & Ho & Hm & Hw1).
  cbn zeta in Hw1. rewrite Hw1 in *. cbn [sessions trace] in *.
  rewrite list_lookup_insert_eq in Hs1 by (by eapply lookup_lt_Some).
  injection Hs1 as <-. cbn [phase_of] in Hp1.
  destruct (num_lt _ m && _); [done |].
  eexists. by rewrite app_assoc.
Qed.


End two_arg_more.
End TwoArgMore.

(** * The further theorems at concrete inputs *)

Ltac run_it :=
  lazymatch goal with |- _ = ?b => vm_cast_no_check (@eq_refl _ b) end.
Ltac reached sched := exists sched; run_it.

Lemma done_session_is_silent_witness :
  events_of 0 (MainJs.trace (main_js_after tic_heap tic_sched))
  = events_of 0 (MainJs.trace (main_js_after tic_heap [Launch 0; Complete 0 notReady])).
Proof.
  eapply (MainJsMore.done_session_is_silent MainJs.successCondition MainJs.abortCondition
            tic_heap (main_js_after tic_heap [Launch 0; Complete 0 notReady])
            [Launch 1; Complete 1 notReady; Fire 1; Complete 1 notReady]
            (main_js_after tic_heap tic_sched) 0 (MainJs.Session 0 Done)).
  - reached [Launch 0; Complete 0 notReady].
  - run_it.
  - reflexivity.
  - run_it.
Defined.

Lemma success_has_priority_witness :
  count (is_success 0)
    (MainJs.trace (main_js_after demo_heap [Launch 0; Complete 0 ready_detail])) = 1 ∧
  count (is_fail 0)
    (MainJs.trace (main_js_after demo_heap [Launch 0; Complete 0 ready_detail])) = 0 ∧
  count (is_fetch 0)
    (MainJs.trace (main_js_after demo_heap [Launch 0; Complete 0 ready_detail]))
  = count (is_fetch 0) (MainJs.trace (main_js_after demo_heap [Launch 0])).
Proof.
  eapply (MainJsMore.success_has_priority MainJs.successCondition MainJs.abortCondition
            demo_heap (main_js_after demo_heap [Launch 0]) 0 ready_detail
            (main_js_after demo_heap [Launch 0; Complete 0 ready_detail]) []).
  - reached [Launch 0].
  - run_it.
  - run_it.
  - run_it.
Defined.

Lemma abort_ends_session_witness :
  count (is_success 0)
    (MainJs.trace (main_js_after demo_heap [Launch 0; Complete 0 status_abort])) = 0 ∧
  count (is_fail 0)
    (MainJs.trace (main_js_after demo_heap [Launch 0; Complete 0 status_abort])) = 1 ∧
  count (is_fetch 0)
    (MainJs.trace (main_js_after demo_heap [Launch 0; Complete 0 status_abort]))
  = count (is_fetch 0) (MainJs.trace (main_js_after demo_heap [Launch 0])).
Proof.
  eapply (MainJsMore.abort_ends_session MainJs.successCondition MainJs.abortCondition
            demo_heap (main_js_after demo_heap [Launch 0]) 0 status_abort
            (main_js_after demo_heap [Launch 0; Complete 0 status_abort]) []).
  - reached [Launch 0].
  - run_it.
  - run_it.
  - run_it.
  - run_it.
Defined.

Lemma attempts_are_sequential_witness :
  count (is_fetch 0) (MainJs.trace (main_js_after demo_heap [Launch 0; Complete 0 notReady]))
  = count (is_timeout 0)
      (MainJs.trace (main_js_after demo_heap [Launch 0; Complete 0 notReady])) + 0.
Proof.
  apply (MainJsMore.attempts_are_sequential MainJs.successCondition MainJs.abortCondition
           demo_heap (main_js_after demo_heap [Launch 0; Complete 0 notReady]) 0
           (MainJs.Session 0 Waiting)).
  - reached [Launch 0; Complete 0 notReady].
  - run_it.
Defined.

Lemma tic_once_per_attempt_witness :
  count (is_tic 0) (MainJs.trace (main_js_after demo_heap [Launch 0; Complete 0 notReady]))
  = count (is_fetch 0)
      (MainJs.trace (main_js_after demo_heap [Launch 0; Complete 0 notReady])) - 0.
Proof.
  apply (proj1 (MainJsMore.tic_once_per_attempt MainJs.successCondition
                  MainJs.abortCondition demo_heap
                  (main_js_after demo_heap [Launch 0; Complete 0 notReady]) 0
                  (MainJs.Session 0 Waiting) (config (num 20))
                  ltac:(reached [Launch 0; Complete 0 notReady])
                  ltac:(run_it) ltac:(run_it))).
  run_it.
Defined.

Lemma timers_use_validated_pollTime_witness :
  ∃ s o,
    MainJs.sessions (main_js_after demo_heap [Launch 0; Complete 0 notReady]) !! 0 = Some s ∧
    MainJs.heap (main_js_after demo_heap [Launch 0; Complete 0 notReady]) !! MainJs.conf s
    = Some o ∧
    num 100 = get o "pollTime" ∧ invalid (num 100) = false.
Proof.
  apply (MainJsMore.timers_use_validated_pollTime MainJs.successCondition
           MainJs.abortCondition demo_heap
           (main_js_after demo_heap [Launch 0; Complete 0 notReady]) 0 (num 100)).
  - reached [Launch 0; Complete 0 notReady].
  - apply list_elem_of_In. vm_compute. do 4 right. left. reflexivity.
Defined.

Lemma counter_counts_all_fetches_witness :
  MainJs.testCount (main_js_after two_sessions_heap two_sessions_sched)
  = count is_any_fetch (MainJs.trace (main_js_after two_sessions_heap two_sessions_sched)).
Proof.
  apply (MainJsMore.counter_counts_all_fetches MainJs.successCondition MainJs.abortCondition
           two_sessions_heap).
  reached two_sessions_sched.
Defined.

Lemma relaunch_writes_nothing_witness :
  MainJs.heap (main_js_after {[ 0 := bad_config ]} [Launch 0; Launch 0])
  = MainJs.heap (main_js_after {[ 0 := bad_config ]} [Launch 0]).
Proof.
  apply (MainJsMore.relaunch_writes_nothing MainJs.successCondition MainJs.abortCondition
           {[ 0 := bad_config ]} (main_js_after {[ 0 := bad_config ]} [Launch 0]) 0
           (MainJs.Session 0 Fetching)).
  - reached [Launch 0].
  - run_it.
  - run_it.
Defined.


Lemma infinite_maxTries_polls_forever_witness :
  ∃ fs' w' s',
    MainJs.run MainJs.successCondition MainJs.abortCondition never_ready (2 * 3) 0 tt
      (main_js_after {[ 0 := small_conf (VNum PInf) ]} [Launch 0]) = Some (fs', w') ∧
    MainJs.sessions w' !! 0 = Some s' ∧ MainJs.phase_of s' = Fetching ∧
    count (is_fetch 0) (MainJs.trace w')
    = count (is_fetch 0)
        (MainJs.trace (main_js_after {[ 0 := small_conf (VNum PInf) ]} [Launch 0])) + 3.
Proof.
  apply (MainJsMore.infinite_maxTries_polls_forever MainJs.successCondition
           MainJs.abortCondition never_ready {[ 0 := small_conf (VNum PInf) ]}
           (main_js_after {[ 0 := small_conf (VNum PInf) ]} [Launch 0]) 0
           (MainJs.Session 0 Fetching) tt 3).
  - intros fs. run_it.
  - intros fs. run_it.
  - reached [Launch 0].
  - run_it.
  - reflexivity.
  - exists (validate (small_conf (VNum PInf))). split; run_it.
Defined.


Lemma create_attempt_bound_witness :
  (Z.of_nat (count (is_fetch 1)
               (Create.trace (create_after two_sessions_heap two_sessions_sched)))
   ≤ Qceiling (inject_Z 5))%Z.
Proof.
  apply (CreateMore.create_attempt_bound Create.successCondition Create.abortCondition
           two_sessions_heap (create_after two_sessions_heap two_sessions_sched) 1
           (Create.Session 1 2 Waiting) (inject_Z 5)).
  - reached two_sessions_sched.
  - run_it.
  - exists (config (num 5)). split; run_it.
Defined.

Lemma create_tic_numbers_count_from_one_witness :
  tic_numbers 1 (Create.trace (create_after two_sessions_heap two_sessions_sched))
  = seq 1 (count (is_fetch 1)
             (Create.trace (create_after two_sessions_heap two_sessions_sched)) - 0).
Proof.
  apply (CreateMore.create_tic_numbers_count_from_one Create.successCondition
           Create.abortCondition two_sessions_heap
           (create_after two_sessions_heap two_sessions_sched) 1
           (Create.Session 1 2 Waiting) (config (num 5))).
  - reached two_sessions_sched.
  - run_it.
  - run_it.
  - run_it.
Defined.


Lemma create_exactly_once_witness :
  count (is_success 0) (Create.trace (create_after demo_heap [Launch 0]))
  + count (is_fail 0) (Create.trace (create_after demo_heap [Launch 0])) ≤ 1 ∧
  ∀ fs : nat, ∃ n, ∀ fuel, n ≤ fuel →
    ∃ fs' w',
      Create.run Create.successCondition Create.abortCondition getStatus fuel 0 fs
        (create_after demo_heap [Launch 0]) = Some (fs', w') ∧
      ∀ sched' w'',
        Create.exec Create.successCondition Create.abortCondition w' sched' = Some w'' →
        count (is_success 0) (Create.trace w'') + count (is_fail 0) (Create.trace w'') = 1.
Proof.
  apply (CreateMore.create_exactly_once Create.successCondition Create.abortCondition
           getStatus demo_heap (create_after demo_heap [Launch 0]) 0
           (Create.Session 0 1 Fetching) (Fin (inject_Z 20))).
  - reached [Launch 0].
  - run_it.
  - exists (config (num 20)). split; run_it.
  - discriminate.
Defined.

Lemma create_step_is_local_witness :
  Create.sessions (create_after demo_heap [Launch 0; Complete 0 notReady]) !! 0
  = Create.sessions (create_after demo_heap [Launch 0; Launch 0; Complete 0 notReady]) !! 0 ∧
  ∃ evs,
    Create.trace (create_after demo_heap [Launch 0; Complete 0 notReady])
    = Create.trace (create_after demo_heap [Launch 0]) ++ evs ∧
    Create.trace (create_after demo_heap [Launch 0; Launch 0; Complete 0 notReady])
    = Create.trace (create_after demo_heap [Launch 0; Launch 0]) ++ evs.
Proof.
  apply (CreateMore.create_step_is_local Create.successCondition Create.abortCondition
           (create_after demo_heap [Launch 0]) (create_after demo_heap [Launch 0; Launch 0])
           0 (Create.Session 0 1 Fetching) (config (num 20)) (Complete 0 notReady)).
  - run_it.
  - run_it.
  - run_it.
  - run_it.
  - reflexivity.
  - run_it.
  - run_it.
Defined.

Lemma create_other_steps_leave_session_witness :
  Create.sessions (create_after tic_heap [Launch 0; Launch 1; Complete 1 notReady; Fire 1]) !! 0
  = Some (Create.Session 0 1 Fetching) ∧
  Create.heap (create_after tic_heap [Launch 0; Launch 1; Complete 1 notReady; Fire 1]) !! 0
  = Some (config (num 1)) ∧
  events_of 0
    (Create.trace (create_after tic_heap [Launch 0; Launch 1; Complete 1 notReady; Fire 1]))
  = events_of 0 (Create.trace (create_after tic_heap [Launch 0])).
Proof.
  apply (CreateMore.create_other_steps_leave_session Create.successCondition
           Create.abortCondition tic_heap (create_after tic_heap [Launch 0])
           [Launch 1; Complete 1 notReady; Fire 1]
           (create_after tic_heap [Launch 0; Launch 1; Complete 1 notReady; Fire 1]) 0
           (Create.Session 0 1 Fetching) (config (num 1))).
  - reached [Launch 0].
  - run_it.
  - run_it.
  - repeat constructor.
  - run_it.
Defined.

Lemma two_arg_outcome_by_status_witness :
  ∃ pre,
    TwoArg.trace (two_arg_after demo_heap [Launch 0; Complete 0 status_done])
    = pre ++ [if strict_eq_str (get status_done "status") "ready"
              then OnSuccess 0 else OnFail 0].
Proof.
  apply (TwoArgMore.two_arg_outcome_by_status doneCondition
           (two_arg_after demo_heap [Launch 0]) 0 status_done
           (two_arg_after demo_heap [Launch 0; Complete 0 status_done])
           (TwoArg.Session 0 Done)).
  - run_it.
  - run_it.
  - reflexivity.
Defined.


Lemma launched_config_is_valid_witness :
  ∃ o n p,
    MainJs.heap (main_js_after {[ 0 := bad_config ]} [Launch 0])
      !! MainJs.conf (MainJs.Session 0 Fetching) = Some o ∧
    get o "maxTries" = VNum n ∧ num_lt n (Fin (inject_Z 1)) = false ∧
    get o "pollTime" = VNum p ∧ num_lt p (Fin (inject_Z 1)) = false.
Proof.
  apply (MainJsMore.launched_config_is_valid MainJs.successCondition MainJs.abortCondition
           {[ 0 := bad_config ]} (main_js_after {[ 0 := bad_config ]} [Launch 0]) 0
           (MainJs.Session 0 Fetching)).
  - reached [Launch 0].
  - run_it.
Defined.

Lemma demo_succeeds_iff_ten_tries_witness :
  ∃ w1,
    MainJs.step MainJs.successCondition MainJs.abortCondition
      (MainJs.init demo_heap) (Launch 0) = Some w1 ∧
    ∃ n, ∀ fuel, n ≤ fuel →
      ∃ w2,
        MainJs.run MainJs.successCondition MainJs.abortCondition getStatus fuel 0 0 w1
        = Some (Nat.min 20 10, w2) ∧
        count (is_fetch 0) (MainJs.trace w2) = Nat.min 20 10 ∧
        count (is_success 0) (MainJs.trace w2) = (if 10 <=? 20 then 1 else 0) ∧
        count (is_fail 0) (MainJs.trace w2) = (if 10 <=? 20 then 0 else 1).
Proof.
  apply (MainJsMore.demo_succeeds_iff_ten_tries demo_heap 0 (config (num 20)) 20).
  - reflexivity.
  - run_it.
Defined.
